(** * MarcXML_2_RIS/Thesis_MarcXML_2_RIS.py: the MARC to RIS converter

    A shallow embedding of the script: the Field Mapper that writes
    [temporary.ris], the Record Splitter / Normalizer that reads it back, the
    Thesis-Type Canonicalizer and the final writer, followed by the
    properties of the pipeline.

    Python strings are sequences of Unicode code points: [str] is [list N].
    Text written in the script is given by [lit] on its ASCII part, with the
    accented letters spelled by their code points. *)

From Stdlib Require Import NArith List String Ascii Lia Bool.
From stdpp Require Import base list gmap sets sorting.
Import ListNotations.

(** ** Strings *)

Definition str := list N.

Definition lit (s : string) : str := map N_of_ascii (list_ascii_of_string s).
Arguments lit s%_string.

Definition LF : N := 10.          (* "\n" *)
Definition CR : N := 13.          (* "\r" *)
Definition quote : N := 34.       (* the double quote *)
Definition a_grave : N := 224.    (* U+00E0 *)
Definition c_cedilla : N := 231.  (* U+00E7 *)
Definition e_grave : N := 232.    (* U+00E8 *)
Definition e_acute : N := 233.    (* U+00E9 *)
Definition i_circ : N := 238.     (* U+00EE *)
Definition h_diaeresis : N := 7719. (* U+1E27 *)

(** [s.startswith(p)] *)
Fixpoint starts_with (p s : str) : bool :=
  match p, s with
  | [], _ => true
  | _ :: _, [] => false
  | a :: p', b :: s' => N.eqb a b && starts_with p' s'
  end.

(** [s.startswith(ps)] for a tuple [ps] of prefixes *)
Definition starts_with_any (ps : list str) (s : str) : bool :=
  existsb (fun p => starts_with p s) ps.

(** [sub in s] *)
Fixpoint contains (sub s : str) : bool :=
  starts_with sub s ||
  match s with
  | [] => false
  | _ :: t => contains sub t
  end.

(** [c in chars] for a character [c] *)
Definition in_chars (chars : str) (c : N) : bool := existsb (N.eqb c) chars.

(** What [str.isspace] accepts: the characters [strip()], [rstrip()] and
    [split()] without argument treat as white space. *)
Definition is_space (c : N) : bool :=
  ((9 <=? c) && (c <=? 13) || (28 <=? c) && (c <=? 32) ||
   (c =? 133) || (c =? 160) || (c =? 5760) ||
   (8192 <=? c) && (c <=? 8202) ||
   (c =? 8232) || (c =? 8233) || (c =? 8239) || (c =? 8287) ||
   (c =? 12288))%N.

Fixpoint lstrip_of (p : N -> bool) (s : str) : str :=
  match s with
  | [] => []
  | c :: t => if p c then lstrip_of p t else s
  end.

Definition rstrip_of (p : N -> bool) (s : str) : str :=
  fold_right (fun c acc =>
                match acc with
                | [] => if p c then [] else [c]
                | _ :: _ => c :: acc
                end) [] s.

(** [s.rstrip(chars)], [s.strip(chars)], [s.rstrip()], [s.strip()] *)
Definition rstrip_chars (chars s : str) : str := rstrip_of (in_chars chars) s.
Definition strip_chars (chars s : str) : str :=
  rstrip_of (in_chars chars) (lstrip_of (in_chars chars) s).
Definition rstrip (s : str) : str := rstrip_of is_space s.
Definition strip (s : str) : str := rstrip_of is_space (lstrip_of is_space s).

(** [s.split()]: the maximal runs of non-space characters; [cur] is the
    run being read, reversed. *)
Fixpoint split_from (cur s : str) : list str :=
  match s with
  | [] => match cur with [] => [] | _ :: _ => [rev cur] end
  | c :: t =>
      if is_space c
      then match cur with
           | [] => split_from [] t
           | _ :: _ => rev cur :: split_from [] t
           end
      else split_from (c :: cur) t
  end.
Definition split (s : str) : list str := split_from [] s.

(** [sep.join(l)] *)
Fixpoint join (sep : str) (l : list str) : str :=
  match l with
  | [] => []
  | x :: xs => match xs with
               | [] => x
               | _ :: _ => x ++ sep ++ join sep xs
               end
  end.

(** [s.replace(old, new)] for a non-empty [old] (both call sites): the
    occurrences of [old] are replaced from the left, without overlap;
    [skip] counts the characters of a replaced occurrence still to pass. *)
Fixpoint replace_from (old new : str) (skip : nat) (s : str) : str :=
  match s with
  | [] => []
  | c :: t =>
      match skip with
      | S k => replace_from old new k t
      | O => if starts_with old s
             then new ++ replace_from old new (length old - 1) t
             else c :: replace_from old new 0 t
      end
  end.
Definition replace (old new s : str) : str := replace_from old new 0 s.

(** ** The parsed input

    A pymarc [Field] as the script reads it: [field.tag],
    [field.get_subfields(...)] over the ordered (code, value) pairs, and
    [str(field)], used for the control field 001. *)

Record Field := mkField {
  tag : str;
  subfields : list (str * str);
  field_text : str
}.

Definition SourceRecord := list Field.

(** [field.get_subfields(codes...)]: the values of the sub-fields whose code
    is one of [codes], in the field's order. *)
Definition get_subfields (codes : list str) (field : Field) : list str :=
  map snd (List.filter (fun sf => existsb (fun c => bool_decide (fst sf = c)) codes)
                       (subfields field)).

(** [record.get_fields(tag)] *)
Definition get_fields (t : str) (record : SourceRecord) : list Field :=
  List.filter (fun f => bool_decide (tag f = t)) record.

(** [tag == t] and [tag in [t1, ...]] *)
Definition tag_is (t : string) (field : Field) : bool := bool_decide (tag field = lit t).
Definition tag_in (ts : list string) (field : Field) : bool :=
  existsb (fun t => tag_is t field) ts.

(** ** Stage 1: the Field Mapper (lines 60-229) *)

Definition TY_THES : str := lit "TY  - THES".
Definition CY_Montreal : str := lit "CY  - Montr" ++ [e_acute] ++ lit "al".
Definition PB_UdeM : str :=
  lit "PB  - Universit" ++ [e_acute] ++ lit " de Montr" ++ [e_acute] ++ lit "al".
Definition ER_entry : str := lit "ER  - " ++ [LF].
Definition LA_Francais : str := lit "LA  - Fran" ++ [c_cedilla] ++ lit "ais".
Definition LA_Anglais : str := lit "LA  - Anglais".

(** The lines 041 and 040 append for one sub-field value. *)
Definition language_lines (sn : str) : list str :=
  (if contains (lit "fre") sn then [LA_Francais] else []) ++
  (if contains (lit "eng") sn then [LA_Anglais] else []).

(** The [d] sub-fields of 502 and 500. *)
Definition date_line (sm : str) : str :=
  let sm := rstrip_chars (lit " ") sm in
  let sm := rstrip_chars (lit ".") sm in
  let sm := rstrip_chars (lit ":") sm in
  lit "DA  - " ++ sm.

(** What one iteration of the loop over [record.get_fields()] appends to
    [ris_entries]: the [if]/[elif] chain, in the order of the script. *)
Definition field_entries (record : SourceRecord) (field : Field) : list str :=
  if tag_is "245" field then
    let title := strip_chars (lit " /") (join (lit " ") (get_subfields [lit "a"; lit "b"] field)) in
    let title := rstrip_chars (lit ".") title in
    [lit "TI  - " ++ title]
  else if tag_is "880" field then
    let title := strip_chars (lit " /") (join (lit " ") (get_subfields [lit "a"; lit "b"] field)) in
    let link := get_subfields [lit "6"] field in
    if match link with
       | [] => false
       | l0 :: _ => starts_with (lit "500") l0 || starts_with (lit "520") l0
       end
    then map (fun sn => lit "AB  - " ++ sn) (get_subfields [lit "a"] field)
    else
      let title := rstrip_chars (lit ".") title in
      [lit "TI  - " ++ title]
  else if tag_in ["100"%string] field then
    map (fun author =>
           let author := rstrip_chars (lit ",") author in
           let author := rstrip_chars (lit ".") author in
           lit "AU  - " ++ author) (get_subfields [lit "a"] field)
  else if tag_in ["700"%string] field then
    map (fun author =>
           let author := rstrip_chars (lit ",") author in
           let author := rstrip_chars (lit ".") author in
           lit "A3  - " ++ author) (get_subfields [lit "a"] field)
  else if tag_is "650" field then
    map (fun kw => lit "KW  - " ++ rstrip_chars (lit ".") kw) (get_subfields [lit "a"] field)
  else if tag_in ["020"%string; "022"%string] field then
    map (fun sn => lit "SN  - " ++ sn) (get_subfields [lit "a"] field)
  else if tag_in ["260"%string] field then
    map (fun sn => lit "DA  - " ++ rstrip_chars (lit ".") sn) (get_subfields [lit "c"] field)
  else if tag_in ["260"%string] field then
    map (fun sn => lit "CY  - " ++ sn) (get_subfields [lit "a"] field)
  else if tag_in ["502"%string] field then
    map (fun sn =>
           let sn := replace [quote] [] sn in
           let sn := rstrip_chars (lit ".") sn in
           lit "M3  - " ++ sn) (get_subfields [lit "a"] field)
    ++ map date_line (get_subfields [lit "d"] field)
  else if tag_in ["500"%string] field then
    map (fun sn =>
           let sn := replace [quote] [] sn in
           let sn := rstrip_chars (lit ".") sn in
           lit "AN  - " ++ sn) (get_subfields [lit "a"] field)
    ++ map date_line (get_subfields [lit "d"] field)
  else if tag_in ["490"%string] field then
    map (fun sn =>
           let sn := replace [quote] [] sn in
           let sn := rstrip_chars (lit ".") sn in
           lit "M3  - " ++ sn) (get_subfields [lit "a"] field)
  else if tag_in ["999"%string] field then
    map (fun sn => lit "UR  - " ++ sn) (get_subfields [lit "a"] field)
  else if tag_in ["852"%string] field then
    map (fun sn => lit "CN  - " ++ sn) (get_subfields [lit "h"] field)
  else if tag_in ["001"%string] field then
    map (fun sn =>
           let sn := field_text sn in
           let sn := replace (lit "=001  ") [] sn in
           lit "ID  - " ++ sn) (get_fields (tag field) record)
  else if tag_in ["300"%string] field then
    map (fun sn =>
           let sn := rstrip_chars (lit ":") sn in
           let sn := rstrip_chars (lit "+") sn in
           let sn := if contains (lit "ressource") sn then [] else sn in
           lit "SP  - " ++ sn) (get_subfields [lit "a"] field)
  else if tag_in ["041"%string] field then
    flat_map language_lines (get_subfields [lit "a"] field)
  else if tag_in ["040"%string] field then
    flat_map language_lines (get_subfields [lit "b"] field)
  else if tag_in ["520"%string] field then
    map (fun sn => lit "AB  - " ++ sn) (get_subfields [lit "a"] field)
  else if tag_in ["586"%string] field then
    map (fun sn => lit "UR  - " ++ sn) (get_subfields [lit "u"] field)
  else [].

(** [strip_end_spaces] and [remove_consecutive_duplicates] (lines 42-47):
    each builds and returns a new list. *)
Definition strip_end_spaces (lignes : list str) : list str := map rstrip lignes.

Fixpoint remove_consecutive_duplicates (lignes : list str) : list str :=
  match lignes with
  | [] => []
  | x :: t => match t with
              | [] => [x]
              | y :: _ => if bool_decide (x = y)
                          then remove_consecutive_duplicates t
                          else x :: remove_consecutive_duplicates t
              end
  end.

(** [ris_entries] when the loop over the fields and the three appends after
    it are done (lines 64-219). *)
Definition ris_entries (record : SourceRecord) : list str :=
  let ris_entries := [TY_THES] in
  let ris_entries :=
    fold_left (fun entries field => entries ++ field_entries record field)
              record ris_entries in
  let ris_entries := ris_entries ++ [CY_Montreal] in
  let ris_entries := ris_entries ++ [PB_UdeM] in
  ris_entries ++ [ER_entry].

(** What the body of the outer loop writes for one record (lines 64-229).
    The two helper calls are expression statements: their values are bound
    to nothing. *)
Definition record_text (record : SourceRecord) : str :=
  let ris_entries := ris_entries record in
  let _ := strip_end_spaces ris_entries in
  let _ := remove_consecutive_duplicates ris_entries in
  let ris_str := join [LF] ris_entries in
  ris_str ++ [LF].

(** The contents of [temporary.ris] after the loop over the records: the
    state of the file is threaded through the writes. *)
Definition temporary_ris (records : list SourceRecord) : str :=
  fold_left (fun f record => f ++ record_text record) records [].

(** ** Stage 2: the Record Splitter / Normalizer (lines 250-307) *)

(** [open("temporary.ris", "r")] reads with universal newlines: a carriage
    return, alone or before a line feed, is read as one line feed.
    [after_cr] says that the character before was a carriage return. *)
Fixpoint universal_newlines (after_cr : bool) (s : str) : str :=
  match s with
  | [] => []
  | c :: t =>
      if N.eqb c CR then LF :: universal_newlines true t
      else if N.eqb c LF
           then (if after_cr then universal_newlines false t
                 else LF :: universal_newlines false t)
           else c :: universal_newlines false t
  end.

(** [for line in f]: the lines of the text, each with its line feed; a last
    line without one is a line too. *)
Fixpoint file_lines (s : str) : list str :=
  match s with
  | [] => []
  | c :: t =>
      if N.eqb c LF then [LF] :: file_lines t
      else match file_lines t with
           | [] => [[c]]
           | l :: ls => (c :: l) :: ls
           end
  end.

(** [lines = [line.rstrip("\n") for line in f]] (line 251) *)
Definition read_lines (text : str) : list str :=
  map (rstrip_chars [LF]) (file_lines (universal_newlines false text)).

(** One iteration of the loop that splits the lines into records (lines
    257-267), on the state [(records, current)]. *)
Definition split_step (st : list (list str) * list str) (line : str)
  : list (list str) * list str :=
  let '(records, current) := st in
  if starts_with (lit "TY  -") (strip line) then
    ((match current with [] => records | _ :: _ => records ++ [current] end), [line])
  else if starts_with (lit "ER  -") (strip line) then
    (records ++ [current ++ [line]], [])
  else
    (records, current ++ [line]).

(** [records] after the loop: what is left in [current] is not appended. *)
Definition split_records (lines : list str) : list (list str) :=
  fst (fold_left split_step lines ([], [])).

(** [rec[-1]] and [rec[1:-1]] of a non-empty [rec = ty :: rest] *)
Definition last_line (ty : str) (rest : list str) : str := List.last rest ty.
Definition body_of (rest : list str) : list str := removelast rest.

(** [len(content.split()) > 40] for the content of an abstract line *)
Definition content_of (line : str) : str := strip (drop 6 line).
Definition word_count (content : str) : nat := length (split content).
Definition is_long_abstract (line : str) : bool :=
  starts_with (lit "AB  -") line && (40 <? word_count (content_of line)).

(** One iteration of the loop over [body_norm] (lines 291-299), on the
    state [(long_abstracts, new_body)]. *)
Definition abstract_step (st : list str * list str) (line : str)
  : list str * list str :=
  let '(long_abstracts, new_body) := st in
  if starts_with (lit "AB  -") line then
    let content := strip (drop 6 line) in
    let word_count := length (split content) in
    if 40 <? word_count then (long_abstracts ++ [content], new_body)
    else (long_abstracts, new_body ++ [line])
  else (long_abstracts, new_body ++ [line]).

(** Lines 288-304: [new_body] after the loop and the merge. *)
Definition merge_abstracts (body_norm : list str) : list str :=
  let '(long_abstracts, new_body) := fold_left abstract_step body_norm ([], []) in
  match long_abstracts with
  | [] => new_body
  | _ :: _ => new_body ++ [lit "AB  - " ++ join [LF; LF] long_abstracts]
  end.

(** The order of [sorted] on strings: by code point, a proper prefix first. *)
Fixpoint str_leb (a b : str) : bool :=
  match a, b with
  | [], _ => true
  | _ :: _, [] => false
  | x :: a', y :: b' =>
      if N.ltb x y then true else if N.ltb y x then false else str_leb a' b'
  end.
Definition str_le (a b : str) : Prop := str_leb a b = true.

#[global] Instance str_le_dec : RelDecision str_le.
Proof. intros a b. unfold str_le. apply _. Defined.

(** [sorted(set(l))] *)
Definition sorted_set (l : list str) : list str :=
  merge_sort str_le (elements (list_to_set (C := gset str) l)).

(** The table of line 313 to 335. *)
Definition These : str := lit "Th" ++ [e_grave] ++ lit "se".
Definition prefixesMA : list str :=
  [ lit "M3  - Histoire (M. Sc.)";
    lit "M3  - Histoire (M.A.)";
    lit "M3  - Maitrise es arts en histoire";
    lit "M3  - Ma" ++ [i_circ] ++ lit "trise (M.A. Hist.)";
    lit "M3  - M" ++ [e_acute] ++ lit "moire (M.A.)";
    lit "M3  - These (M.A.)";
    lit "M3  - " ++ These ++ lit " (D.E.S.";
    lit "M3  - " ++ These ++ lit " (M. A.)";
    lit "M3  - " ++ These ++ lit " (M. Sc.)";
    lit "M3  - " ++ These ++ lit " (M.A.";
    lit "M3  - " ++ These ++ lit " (de ma" ++ [i_circ] ++ lit "trise";
    lit "M3  - " ++ These ++ lit ". (M.A.)";
    lit "M3  - " ++ These ++ lit ". (M.A.)";
    lit "M3  - T" ++ [h_diaeresis] ++ lit "se (M.A.)" ].
Definition prefixesPHD : list str :=
  [ lit "M3  - Histoire (Ph. D.)";
    lit "M3  - " ++ These ++ lit " (D. " ++ [e_grave] ++ lit "s L.)";
    lit "M3  - " ++ These ++ lit " (D.L.)";
    lit "M3  - " ++ These ++ lit " (Ph. D.";
    lit "M3  - " ++ These ++ lit " (Ph.D.";
    lit "M3  - " ++ These ++ lit " pr" ++ [e_acute] ++ lit "sent" ++ [e_acute]
      ++ lit "e pour l'obtention du grade de Docteur en Philosophie (Ph. D.)";
    lit "M3  - " ++ These ++ lit " pr" ++ [e_acute] ++ lit "sent" ++ [e_acute]
      ++ lit "e " ++ [a_grave] ++ lit " la Facult" ++ [e_acute] ++ lit " des "
      ++ [e_acute] ++ lit "tudes sup" ++ [e_acute]
      ++ lit "rieures en vue de l'obtention du grade de Phil" ].
Definition M3_maitrise : str :=
  lit "M3  - M" ++ [e_acute] ++ lit "moire de ma" ++ [i_circ] ++ lit "trise (M.A.)".
Definition M3_doctorat : str := lit "M3  - " ++ These ++ lit " de doctorat (Ph.D.)".

(** The final writer (lines 367-371): every line and its line feed, and a
    line feed after every record. *)
Definition final_text (final_records : list (list str)) : str :=
  fold_left (fun f rec =>
               fold_left (fun f line => f ++ (line ++ [LF])) rec f ++ [LF])
            final_records [].

Section Pipeline.

(** [unicodedata.normalize("NFC", _)], of Python's library. *)
Variable nfc : str -> str.

(** Lines 276-307 for one [rec] of [records]: nothing for an empty one
    ([continue]), else [[ty] + new_body + [er]]. *)
Definition clean_record (rec : list str) : list (list str) :=
  match rec with
  | [] => []
  | ty :: rest =>
      let er := last_line ty rest in
      let body := body_of rest in
      let body_norm := map nfc body in
      let body_norm := sorted_set body_norm in
      let new_body := merge_abstracts body_norm in
      [[ty] ++ new_body ++ [er]]
  end.

Definition processed_records (records : list (list str)) : list (list str) :=
  fold_left (fun processed rec => processed ++ clean_record rec) records [].

(** ** Stage 3: the Thesis-Type Canonicalizer (lines 340-356)

    Every line of [processed_records] is a string, so the branch on
    [isinstance(line, list)] is never taken. *)
Definition canon_line (line : str) : str :=
  let line := nfc line in
  if starts_with_any prefixesMA line then M3_maitrise
  else if starts_with_any prefixesPHD line then M3_doctorat
  else line.

Definition canon_records (processed : list (list str)) : list (list str) :=
  map (fun record => map canon_line record) processed.

(** [final_records] for the records the parser gave, and the text of
    [export_2_zotero.ris]. *)
Definition final_records (records : list SourceRecord) : list (list str) :=
  canon_records
    (processed_records (split_records (read_lines (temporary_ris records)))).

Definition export_2_zotero (records : list SourceRecord) : str :=
  final_text (final_records records).

End Pipeline.

(** * Statements: the words of the properties, and the inputs they are tried on *)

(** The two-letter tags a field can give a line: every one of the branches
    of [field_entries] writes its tag before the value. *)
Definition field_tags : list str :=
  map lit ["TI"; "AB"; "AU"; "A3"; "KW"; "SN"; "DA"; "M3"; "AN"; "UR"; "CN";
           "ID"; "SP"; "LA"]%string.

Definition has_tag (tags : list str) (line : str) : bool :=
  existsb (fun t => starts_with (t ++ lit "  - ") line) tags.

(** The body of the loop without the two helper calls. *)
Definition record_text_without_helpers (record : SourceRecord) : str :=
  let ris_entries := ris_entries record in
  let ris_str := join [LF] ris_entries in
  ris_str ++ [LF].

(** The body of the loop, had the values of the helper calls been kept. *)
Definition record_text_with_helpers (record : SourceRecord) : str :=
  let ris_entries := ris_entries record in
  let ris_entries := strip_end_spaces ris_entries in
  let ris_entries := remove_consecutive_duplicates ris_entries in
  let ris_str := join [LF] ris_entries in
  ris_str ++ [LF].

(** A record of two equal keyword fields, the keyword ending in a space. *)
Definition keyword_field : Field :=
  mkField (lit "650") [(lit "a", lit "History ")] [].
Definition two_keywords : SourceRecord := [keyword_field; keyword_field].

(** The tags the [if]/[elif] chain tests. *)
Definition mapped_tags : list string :=
  ["245"; "880"; "100"; "700"; "650"; "020"; "022"; "260"; "502"; "500";
   "490"; "999"; "852"; "001"; "300"; "041"; "040"; "520"; "586"]%string.

(** The sub-field codes the branch taken for a field passes to
    [get_subfields], branch by branch in the order of the chain; the branch
    of 001 reads no sub-field. *)
Definition expected_codes (field : Field) : list str :=
  if tag_is "245" field then [lit "a"; lit "b"]
  else if tag_is "880" field then [lit "a"; lit "b"; lit "6"]
  else if tag_in ["100"%string] field then [lit "a"]
  else if tag_in ["700"%string] field then [lit "a"]
  else if tag_is "650" field then [lit "a"]
  else if tag_in ["020"%string; "022"%string] field then [lit "a"]
  else if tag_in ["260"%string] field then [lit "c"]
  else if tag_in ["502"%string] field then [lit "a"; lit "d"]
  else if tag_in ["500"%string] field then [lit "a"; lit "d"]
  else if tag_in ["490"%string] field then [lit "a"]
  else if tag_in ["999"%string] field then [lit "a"]
  else if tag_in ["852"%string] field then [lit "h"]
  else if tag_in ["001"%string] field then []
  else if tag_in ["300"%string] field then [lit "a"]
  else if tag_in ["041"%string] field then [lit "a"]
  else if tag_in ["040"%string] field then [lit "b"]
  else if tag_in ["520"%string] field then [lit "a"]
  else if tag_in ["586"%string] field then [lit "u"]
  else [].

(** A field of tag 245 without sub-fields. *)
Definition empty_title : Field := mkField (lit "245") [] [].

(** A field of tag 100 whose only sub-field is a date, and a field of a tag
    the chain does not test. *)
Definition author_without_name : Field :=
  mkField (lit "100") [(lit "d", lit "1950-")] [].
Definition unmapped_field : Field :=
  mkField (lit "856") [(lit "a", lit "x")] [].


(** [n] words separated by single spaces, and the abstract line of them. *)
Definition words (n : nat) : str := join (lit " ") (repeat (lit "w") n).
Definition abstract_line (n : nat) : str := lit "AB  - " ++ words n.

(** What is known of NFC here: a string whose code points are all below
    U+0300, the first combining mark, is in NFC already. *)
Definition composed (s : str) : bool := forallb (fun c => N.ltb c 768) s.
Definition fixes_composed (nfc : str -> str) : Prop :=
  forall s, composed s = true -> nfc s = s.

(** [rec[1:-1]] of a record. *)
Definition record_body (rec : list str) : list str := body_of (tl rec).

(** The claim on the cleaned body of a record: the set of its lines is the
    set of the normalized lines of the input body, no line is there twice,
    and the lines are in the order of [sorted]. *)
Definition cleaned_body_as_claimed (nfc : str -> str) (rec : list str) : Prop :=
  forall out, clean_record nfc rec = [out] ->
    (forall x, In x (record_body out) <-> In x (map nfc (record_body rec)))
    /\ NoDup (record_body out)
    /\ StronglySorted str_le (record_body out).

(** A record with two abstracts of 41 and 42 words. *)
Definition two_long_abstracts : list str :=
  [TY_THES; abstract_line 41; abstract_line 42; CY_Montreal; lit "ER  - "].

(** A normalizer to try the properties on, a fragment of NFC: the letter e
    followed by the combining grave (U+0300) or acute (U+0301) accent is
    composed into one letter, and nothing else is touched. *)
Definition compose_e_accents (s : str) : str :=
  fold_right (fun c composed_tail =>
                match composed_tail with
                | m :: tail' =>
                    if N.eqb c 101 && N.eqb m 768 then e_grave :: tail'
                    else if N.eqb c 101 && N.eqb m 769 then e_acute :: tail'
                    else c :: composed_tail
                | [] => [c]
                end) [] s.

(** The lines of a list of records are composed text. *)
Definition all_composed (records : list (list str)) : bool :=
  forallb (forallb composed) records.

(** A record whose only field is a title, and the final record of it. *)
Definition title_record : SourceRecord :=
  [mkField (lit "245") [(lit "a", lit "A title")] []].
Definition final_title_record : list str :=
  [TY_THES; CY_Montreal; PB_UdeM; lit "TI  - A title"; lit "ER  - "].

(** The lines of a degree that the canonicalizer is tried on. *)
Definition These_PhD : str := lit "M3  - " ++ These ++ lit " (Ph. D.)".
Definition Memoire_MA : str := lit "M3  - M" ++ [e_acute] ++ lit "moire (M.A.)".
Definition Something : str := lit "M3  - Something unrecognized".
(** The first of them, the accent written as a combining mark. *)
Definition These_PhD_decomposed : str := lit "M3  - The" ++ [768%N] ++ lit "se (Ph. D.)".

(** The claim on the intermediate file: a line of tag ER that is not the
    last one is followed at once by a line of tag TY. *)
Fixpoint records_run_together (lines : list str) : bool :=
  match lines with
  | [] => true
  | l :: t =>
      match t with
      | [] => true
      | l' :: _ =>
          (if starts_with (lit "ER  -") l then starts_with (lit "TY  -") l' else true)
          && records_run_together t
      end
  end.

(** How many times a line stands in a record. *)
Definition count_line (line : str) (rec : list str) : nat :=
  length (List.filter (fun l => bool_decide (l = line)) rec).

(** Input without line breaks: no sub-field value and no field text holds a
    line feed or a carriage return. *)
Definition no_line_break (s : str) : bool :=
  forallb (fun c => negb (N.eqb c LF) && negb (N.eqb c CR)) s.
Definition plain (s : str) : Prop := Forall (fun c => c <> LF /\ c <> CR) s.
Definition plain_field (field : Field) : bool :=
  forallb (fun sf => no_line_break (snd sf)) (subfields field)
  && no_line_break (field_text field).
Definition plain_record (record : SourceRecord) : bool := forallb plain_field record.

(** The lines of the record in [ris_entries]: the last entry without its
    line feed. *)
Definition ris_lines (record : SourceRecord) : list str :=
  [TY_THES] ++ flat_map (field_entries record) record
            ++ [CY_Montreal; PB_UdeM; lit "ER  - "].

(** The lines between the first and the last one, and their tags. *)
Definition record_middle (record : SourceRecord) : list str :=
  flat_map (field_entries record) record ++ [CY_Montreal; PB_UdeM].
Definition middle_tags : list str := field_tags ++ [lit "CY"; lit "PB"].

(** [x1; sep; x2; sep; ...; xn] *)
Definition between {A : Type} (sep : A) (l : list A) : list A :=
  match l with
  | [] => []
  | x :: rest => x :: flat_map (fun y => [sep; y]) rest
  end.

(** The final record of one source record, on its own. *)
Definition final_record (nfc : str -> str) (record : SourceRecord) : list str :=
  map (canon_line nfc)
      ([TY_THES]
         ++ merge_abstracts (sorted_set (map nfc (record_middle record)))
         ++ [lit "ER  - "]).

(** What more is known of NFC: a code point below U+0300 followed by
    another one stays, and what follows is normalized by itself (neither is
    a combining mark, and no such pair composes). *)
Definition keeps_head (nfc : str -> str) : Prop :=
  forall a b s, N.ltb a 768 = true -> N.ltb b 768 = true ->
                nfc (a :: b :: s) = a :: nfc (b :: s).

(** The lines of a record whose tag is [t]. *)
Definition lines_of_tag (t : string) (rec : list str) : list str :=
  List.filter (starts_with (lit t)) rec.

(** A line of tag [t]: the tag, two spaces and the dash; the one line of
    the place and the one of the publisher when the tag is one of theirs. *)
Definition tagged (t l : str) : Prop :=
  (exists w, l = (t ++ lit "  -") ++ w)
  /\ (t = lit "CY" -> l = CY_Montreal)
  /\ (t = lit "PB" -> l = PB_UdeM).


(** The state [(records, current)] when the loop of lines 257-267 ends, and
    the two tests the loop makes on a line. *)
Definition split_state (lines : list str) : list (list str) * list str :=
  fold_left split_step lines ([], []).
Definition opens_record (line : str) : bool :=
  starts_with (lit "TY  -") (strip line).
Definition closes_record (line : str) : bool :=
  starts_with (lit "ER  -") (strip line).

(** The shape of a record of [records]: it has a line, a line that opens a
    record is its first one and a line that closes one is its last one. *)
Definition record_shape (rec : list str) : Prop :=
  rec <> []
  /\ Forall (fun l => opens_record l = false) (tl rec)
  /\ Forall (fun l => closes_record l = false) (removelast rec).

(** A content, as [line[6:].strip()] gives it, with a word in it. *)
Definition tight (c : str) : Prop :=
  c <> [] /\ lstrip_of is_space c = c /\ rstrip_of is_space c = c.


(** Normalizing twice is normalizing once. *)
Definition idempotent (nfc : str -> str) : Prop := forall s, nfc (nfc s) = nfc s.

(** No letter e is followed by one of the two accents [compose_e_accents]
    composes. *)
Fixpoint e_accents_composed (s : str) : Prop :=
  match s with
  | [] => True
  | c :: t =>
      match t with
      | [] => True
      | m :: _ => ~ (c = 101%N /\ (m = 768%N \/ m = 769%N)) /\ e_accents_composed t
      end
  end.

(** The tags of the lines of a record: those of the first line, of the
    lines of the middle and of the last line. *)
Definition all_tags : list str := lit "TY" :: middle_tags ++ [lit "ER"].

(** No two lines next to each other are equal. *)
Fixpoint distinct_neighbours (l : list str) : Prop :=
  match l with
  | [] => True
  | x :: t =>
      match t with
      | [] => True
      | y :: _ => x <> y /\ distinct_neighbours t
      end
  end.

(** The line does not end with white space. *)
Definition no_trailing_space (l : str) : Prop :=
  forall r c, l = r ++ [c] -> is_space c = false.

(** The tags of the lines the mapper clears of double quotes, and of the
    lines whose value it strips of the periods at its end. *)
Definition quote_free_tags : list str := map lit ["M3"; "AN"]%string.
Definition period_free_tags : list str :=
  map lit ["TI"; "AU"; "A3"; "KW"; "M3"; "AN"]%string.
Definition period : N := 46.
(** * Properties *)

(** ** Loops that append are concatenations *)

Lemma fold_left_append {A B : Type} (g : A -> list B) (l : list A) (init : list B) :
  fold_left (fun acc x => acc ++ g x) l init = init ++ flat_map g l.
Proof.
  revert init. induction l as [|x l IH]; intros init; simpl.
  - by rewrite app_nil_r.
  - by rewrite IH, <- app_assoc.
Qed.

Lemma ris_entries_eq (record : SourceRecord) :
  ris_entries record =
  [TY_THES] ++ flat_map (field_entries record) record
            ++ [CY_Montreal; PB_UdeM; ER_entry].
Proof.
  unfold ris_entries. rewrite fold_left_append.
  by rewrite <- !app_assoc.
Qed.

Lemma temporary_ris_eq (records : list SourceRecord) :
  temporary_ris records = flat_map record_text records.
Proof. unfold temporary_ris. by rewrite fold_left_append. Qed.

(** ** The tags of the mapped lines *)

Lemma Forall_map_intro {A B : Type} (P : B -> Prop) (f : A -> B) (l : list A) :
  (forall x, P (f x)) -> Forall P (map f l).
Proof. intros H. induction l; simpl; by constructor. Qed.

Lemma language_lines_tags (sn : str) :
  Forall (fun e => has_tag field_tags e = true) (language_lines sn).
Proof.
  unfold language_lines.
  destruct (contains (lit "fre") sn), (contains (lit "eng") sn); simpl;
    repeat constructor.
Qed.

Lemma Forall_flat_map_intro {A B : Type} (P : B -> Prop) (f : A -> list B) (l : list A) :
  (forall x, Forall P (f x)) -> Forall P (flat_map f l).
Proof.
  intros H. induction l; simpl; [constructor|]. apply Forall_app. by split.
Qed.

Lemma field_entries_tags (record : SourceRecord) (field : Field) :
  Forall (fun e => has_tag field_tags e = true) (field_entries record field).
Proof.
  unfold field_entries.
  repeat match goal with
    | |- Forall _ (if ?b then _ else _) => destruct b
    | |- Forall _ (_ ++ _) => apply Forall_app; split
    | |- Forall _ (map _ _) => apply Forall_map_intro; intros; reflexivity
    | |- Forall _ (flat_map _ _) =>
        apply Forall_flat_map_intro; intros; apply language_lines_tags
    | |- Forall _ [] => constructor
    | |- Forall _ [_] => constructor; [reflexivity|constructor]
    end.
Qed.

Lemma has_tag_not_CY (e : str) :
  has_tag field_tags e = true -> starts_with (lit "CY") e = false.
Proof.
  destruct e as [|c1 [|c2 e]]; intros H; [reflexivity| |].
  { change (((67 =? c1)%N && false) = false). apply andb_false_r. }
  unfold has_tag, field_tags in H. cbn [map existsb] in H.
  rewrite !orb_true_iff in H.
  change (starts_with (lit "CY") (c1 :: c2 :: e))
    with ((67 =? c1)%N && ((89 =? c2)%N && true)).
  destruct (N.eqb_spec 67 c1) as [<-|]; [|reflexivity].
  destruct (N.eqb_spec 89 c2) as [<-|]; [|reflexivity].
  repeat destruct H as [H|H]; discriminate H.
Qed.

Lemma filter_none {A : Type} (p : A -> bool) (l : list A) :
  Forall (fun x => p x = false) l -> List.filter p l = [].
Proof.
  induction 1 as [|x l Hx _ IH]; simpl; [done|]. by rewrite Hx.
Qed.

(** C10: in every record, the lines of [ris_entries] tagged CY are the one
    constant line for Montreal; a field of tag 260 gives the DA lines of its
    sub-fields c and nothing else, whatever its sub-fields a are: the
    second branch on tag 260 is never taken. *)
Theorem C10_only_constant_CY :
  forall record : SourceRecord,
    List.filter (starts_with (lit "CY")) (ris_entries record) = [CY_Montreal]
    /\ forall sfs txt,
        field_entries record (mkField (lit "260") sfs txt) =
        map (fun sn => lit "DA  - " ++ rstrip_chars (lit ".") sn)
            (get_subfields [lit "c"] (mkField (lit "260") sfs txt)).
Proof.
  intros record. split.
  - rewrite ris_entries_eq, !List.filter_app.
    rewrite (filter_none _ (flat_map _ _)).
    + reflexivity.
    + apply Forall_flat_map_intro. intros f.
      eapply Forall_impl; [apply field_entries_tags|].
      apply has_tag_not_CY.
  - intros sfs txt. reflexivity.
Qed.

(** ** The helper calls of lines 224 and 225 *)

Lemma join_snoc (sep : str) (l : list str) (x : str) :
  exists p, join sep (l ++ [x]) = p ++ x.
Proof.
  induction l as [|a l [p IH]].
  - by exists [].
  - exists (a ++ sep ++ p).
    change (join sep ((a :: l) ++ [x]))
      with (match l ++ [x] with
            | [] => a
            | _ :: _ => a ++ sep ++ join sep (l ++ [x])
            end).
    destruct (l ++ [x]) eqn:E.
    + by destruct l.
    + by rewrite IH, <- !app_assoc.
Qed.

Lemma remove_consecutive_duplicates_snoc (l : list str) (x : str) :
  exists l', remove_consecutive_duplicates (l ++ [x]) = l' ++ [x].
Proof.
  induction l as [|a l [l' IH]].
  - by exists [].
  - change (remove_consecutive_duplicates ((a :: l) ++ [x]))
      with (match l ++ [x] with
            | [] => [a]
            | y :: _ => if bool_decide (a = y)
                        then remove_consecutive_duplicates (l ++ [x])
                        else a :: remove_consecutive_duplicates (l ++ [x])
            end).
    destruct (l ++ [x]) as [|y t] eqn:E.
    + by destruct l.
    + destruct (bool_decide (a = y)).
      * by exists l'.
      * exists (a :: l'). by rewrite IH.
Qed.

(** C9: what is written for a record is the join of the raw [ris_entries]:
    it equals the loop body without the two helper calls, it differs from
    the loop body that would keep their values for every record, and the
    trailing space and the repeated line of [two_keywords] are written. *)
Theorem C9_helper_calls_discarded :
  (forall record : SourceRecord,
      record_text record = record_text_without_helpers record
      /\ record_text record = join [LF] (ris_entries record) ++ [LF]
      /\ record_text record <> record_text_with_helpers record)
  /\ record_text two_keywords =
       join [LF] [TY_THES; lit "KW  - History "; lit "KW  - History ";
                  CY_Montreal; PB_UdeM; lit "ER  - " ++ [LF]] ++ [LF].
Proof.
  split; [|by vm_compute].
  intros record. split; [reflexivity|]. split; [reflexivity|].
  unfold record_text, record_text_with_helpers, strip_end_spaces.
  cbv zeta.
  assert (exists pre, ris_entries record = pre ++ [ER_entry]) as [pre ->].
  { rewrite ris_entries_eq.
    exists ([TY_THES] ++ flat_map (field_entries record) record
                      ++ [CY_Montreal; PB_UdeM]).
    by rewrite <- !app_assoc. }
  rewrite map_app. cbn [map].
  destruct (remove_consecutive_duplicates_snoc (map rstrip pre) (rstrip ER_entry))
    as [l' ->].
  destruct (join_snoc [LF] pre ER_entry) as [p ->].
  destruct (join_snoc [LF] l' (rstrip ER_entry)) as [q ->].
  intros H. apply (f_equal (@rev N)) in H.
  rewrite !rev_app_distr in H.
  by vm_compute in H.
Qed.

(** ** Fields without a rule, and rules without their sub-fields *)

Lemma get_subfields_sub (codes codes' : list str) (field : Field) :
  (forall c, In c codes' -> In c codes) ->
  get_subfields codes field = [] -> get_subfields codes' field = [].
Proof.
  unfold get_subfields. intros Hsub.
  induction (subfields field) as [|sf l IH]; [done|]. simpl.
  destruct (existsb _ codes) eqn:E; [done|]. intros H.
  destruct (existsb _ codes') eqn:E'; [|by apply IH].
  apply existsb_exists in E' as (c & Hc & Hdec).
  assert (existsb (fun c => bool_decide (sf.1 = c)) codes = true); [|congruence].
  apply existsb_exists. exists c. split; [by apply Hsub|done].
Qed.

Lemma tag_is_excl (t t' : string) (field : Field) :
  tag_is t field = true -> bool_decide (lit t = lit t') = false ->
  tag_is t' field = false.
Proof.
  unfold tag_is. intros Ht%bool_decide_eq_true. by rewrite Ht.
Qed.

(** In the goal, the sub-fields that [H] says are absent. *)
Ltac absent_sub H :=
  match goal with
  | |- context [get_subfields ?cs ?f] =>
      let E := fresh "E" in
      assert (get_subfields cs f = []) as E
        by (eapply get_subfields_sub; [|exact H]; simpl; tauto);
      rewrite E; clear E
  end.

(** One test of the chain on [field]: when it holds, the other tests fail. *)
Ltac chain_step field :=
  match goal with
  | |- context [tag_is ?t field] =>
      let E := fresh "E" in
      let H := fresh "H" in
      destruct (tag_is t field) eqn:E;
      [ repeat match goal with
               | |- context [tag_is ?t' field] =>
                   rewrite (tag_is_excl t t' field E eq_refl)
               end;
        cbn [orb]; intros H; repeat absent_sub H; reflexivity
      | ]
  end.

(** C8 as the code has it: a field whose tag the chain does not test gives
    no line; a field without the sub-fields its branch reads gives no line,
    except that 245 and 880 then give the line of an empty title and 001
    gives an ID line for every field of tag 001 in the record. *)
Theorem C8_unmapped_and_absent :
  forall (record : SourceRecord) (field : Field),
    (tag_in mapped_tags field = false -> field_entries record field = [])
    /\ (get_subfields (expected_codes field) field = [] ->
        field_entries record field =
        if tag_in ["245"; "880"]%string field then [lit "TI  - "]
        else if tag_in ["001"%string] field
             then map (fun sn => lit "ID  - " ++ replace (lit "=001  ") [] (field_text sn))
                      (get_fields (tag field) record)
             else []).
Proof.
  intros record field. unfold field_entries, expected_codes, mapped_tags, tag_in.
  cbn [existsb]. rewrite !orb_false_r.
  split.
  - rewrite !orb_false_iff. intros H.
    repeat match type of H with
           | _ /\ _ => let E := fresh "E" in destruct H as [E H]; rewrite E
           end.
    by rewrite H.
  - repeat chain_step field. reflexivity.
Qed.

Lemma C8_witness :
  field_entries [unmapped_field] unmapped_field = []
  /\ field_entries [author_without_name] author_without_name = [].
Proof.
  split.
  - apply (proj1 (C8_unmapped_and_absent [unmapped_field] unmapped_field)).
    reflexivity.
  - apply (proj2 (C8_unmapped_and_absent [author_without_name] author_without_name)).
    reflexivity.
Defined.

(** C8, against the claim: the field of tag 245 without sub-fields has the
    sub-fields its rule reads absent, and the mapper gives a line for it. *)
Lemma C8_counterexample :
  get_subfields [lit "a"; lit "b"] empty_title = []
  /\ field_entries [empty_title] empty_title = [lit "TI  - "]
  /\ field_entries [empty_title] empty_title <> [].
Proof. by vm_compute. Qed.

(** ** The abstract merge (lines 288-304) *)

Lemma abstract_loop (body_norm long_abstracts new_body : list str) :
  fold_left abstract_step body_norm (long_abstracts, new_body) =
  (long_abstracts ++ map content_of (List.filter is_long_abstract body_norm),
   new_body ++ List.filter (fun l => negb (is_long_abstract l)) body_norm).
Proof.
  revert long_abstracts new_body.
  induction body_norm as [|line l IH]; intros long_abstracts new_body.
  - by rewrite !app_nil_r.
  - cbn [fold_left List.filter]. unfold abstract_step at 2, is_long_abstract.
    fold (content_of line). fold (word_count (content_of line)).
    destruct (starts_with (lit "AB  -") line);
      [destruct (40 <? word_count (content_of line))|];
      cbn [andb negb map]; rewrite IH; by rewrite <- !app_assoc.
Qed.

Lemma merge_abstracts_eq (body_norm : list str) :
  merge_abstracts body_norm =
  List.filter (fun l => negb (is_long_abstract l)) body_norm ++
  match List.filter is_long_abstract body_norm with
  | [] => []
  | _ :: _ =>
      [lit "AB  - " ++
       join [LF; LF] (map content_of (List.filter is_long_abstract body_norm))]
  end.
Proof.
  unfold merge_abstracts. rewrite abstract_loop. cbn [app].
  destruct (List.filter is_long_abstract body_norm); cbn [map].
  - by rewrite app_nil_r.
  - reflexivity.
Qed.

Lemma filter_negb_all {A : Type} (p : A -> bool) (l : list A) :
  List.filter p l = [] -> List.filter (fun x => negb (p x)) l = l.
Proof.
  induction l as [|x l IH]; simpl; [done|].
  destruct (p x); simpl; [done|]. intros H. by rewrite IH.
Qed.

(** C5: the loop keeps, in their order, the lines that are not abstracts of
    more than 40 words, and appends one line made of the contents of those
    that are, in their order, joined by two line feeds; without such an
    abstract nothing is appended; 40 words are not more than 40, 41 are. *)
Theorem C5_abstract_merge :
  forall body_norm : list str,
    let long := List.filter is_long_abstract body_norm in
    merge_abstracts body_norm =
      List.filter (fun l => negb (is_long_abstract l)) body_norm ++
      match long with
      | [] => []
      | _ :: _ => [lit "AB  - " ++ join [LF; LF] (map content_of long)]
      end
    /\ (forall line, In line body_norm -> is_long_abstract line = false ->
                     In line (merge_abstracts body_norm))
    /\ (long = [] -> merge_abstracts body_norm = body_norm)
    /\ (forall line, is_long_abstract line =
                     starts_with (lit "AB  -") line
                     && (40 <? length (split (strip (drop 6 line)))))
    /\ is_long_abstract (abstract_line 40) = false
    /\ is_long_abstract (abstract_line 41) = true.
Proof.
  intros body_norm long. subst long.
  split; [apply merge_abstracts_eq|].
  split.
  { intros line Hin Hshort. rewrite merge_abstracts_eq.
    apply in_or_app. left. apply filter_In. split; [done|]. by rewrite Hshort. }
  split.
  { intros Hnone. rewrite merge_abstracts_eq, Hnone, app_nil_r.
    by apply filter_negb_all. }
  split; [reflexivity|].
  split; by vm_compute.
Qed.

Lemma C5_witness :
  In (abstract_line 40)
     (merge_abstracts [abstract_line 40; abstract_line 41; CY_Montreal])
  /\ merge_abstracts [abstract_line 40; CY_Montreal] =
     [abstract_line 40; CY_Montreal].
Proof.
  split.
  - apply (C5_abstract_merge [abstract_line 40; abstract_line 41; CY_Montreal]).
    + left. reflexivity.
    + by vm_compute.
  - apply (C5_abstract_merge [abstract_line 40; CY_Montreal]).
    by vm_compute.
Defined.

(** ** Deduplication and sorting (line 284) *)

Lemma str_leb_refl (a : str) : str_leb a a = true.
Proof.
  induction a as [|x a IH]; simpl; [done|]. by rewrite N.ltb_irrefl.
Qed.

#[global] Instance str_le_total : Total str_le.
Proof.
  unfold Total, str_le. intros a.
  induction a as [|x a IH]; intros [|y b]; simpl; auto.
  destruct (N.ltb_spec x y), (N.ltb_spec y x); auto; lia.
Qed.

#[global] Instance str_le_trans : Transitive str_le.
Proof.
  unfold Transitive, str_le. intros a.
  induction a as [|x a IH]; intros [|y b] [|z c]; simpl; try done.
  destruct (N.ltb_spec x y), (N.ltb_spec y x), (N.ltb_spec y z),
    (N.ltb_spec z y), (N.ltb_spec x z), (N.ltb_spec z x);
    try done; try lia.
  apply IH.
Qed.

#[global] Instance str_le_antisym : AntiSymm eq str_le.
Proof.
  unfold AntiSymm, str_le. intros a.
  induction a as [|x a IH]; intros [|y b]; simpl; try done.
  destruct (N.ltb_spec x y), (N.ltb_spec y x); try done; try lia.
  intros Hab Hba. assert (x = y) as -> by lia. f_equal. by apply IH.
Qed.

Lemma sorted_set_In (l : list str) (x : str) : In x (sorted_set l) <-> In x l.
Proof.
  unfold sorted_set. rewrite <- !list_elem_of_In.
  rewrite merge_sort_Permutation, elem_of_elements.
  apply elem_of_list_to_set.
Qed.

Lemma sorted_set_NoDup (l : list str) : NoDup (sorted_set l).
Proof.
  unfold sorted_set. rewrite merge_sort_Permutation. apply NoDup_elements.
Qed.

Lemma sorted_set_sorted (l : list str) : StronglySorted str_le (sorted_set l).
Proof. unfold sorted_set. apply StronglySorted_merge_sort; apply _. Qed.

(** A normalizer matters to [clean_record] through the body lines only. *)
Lemma clean_record_fixed (nfc : str -> str) (rec : list str) :
  Forall (fun l => nfc l = l) (record_body rec) ->
  clean_record nfc rec = clean_record (fun s => s) rec.
Proof.
  destruct rec as [|ty rest]; [done|]. unfold record_body. cbn [tl].
  intros H. unfold clean_record.
  replace (map nfc (body_of rest)) with (map (fun s : str => s) (body_of rest));
    [done|].
  induction H as [|l ls Hl _ IH]; simpl; [done|]. by rewrite Hl, IH.
Qed.




(** ** The canonicalizer (lines 340-356) *)

Lemma compose_e_accents_fixes : fixes_composed compose_e_accents.
Proof.
  intros s. induction s as [|c s IH]; [done|].
  cbn [composed forallb]. intros [Hc Hs]%andb_true_iff.
  change (compose_e_accents (c :: s))
    with (match compose_e_accents s with
          | m :: tail' =>
              if N.eqb c 101 && N.eqb m 768 then e_grave :: tail'
              else if N.eqb c 101 && N.eqb m 769 then e_acute :: tail'
              else c :: compose_e_accents s
          | [] => [c]
          end).
  rewrite (IH Hs). destruct s as [|m s]; [done|].
  cbn [forallb] in Hs. apply andb_true_iff in Hs as [Hm _].
  apply N.ltb_lt in Hm.
  destruct (N.eqb_spec m 768); [lia|]. destruct (N.eqb_spec m 769); [lia|].
  by rewrite !andb_false_r.
Qed.

(** C6: the three lines of the specification, the lines that match no
    prefix (they leave as they are after normalization), and the lines that
    match a prefix of the first table, whatever the second table says. *)
Theorem C6_degree_canonicalization :
  forall nfc : str -> str,
    fixes_composed nfc ->
    canon_line nfc These_PhD = M3_doctorat
    /\ canon_line nfc Memoire_MA = M3_maitrise
    /\ canon_line nfc Something = Something
    /\ (forall line,
          starts_with_any prefixesMA (nfc line) = false ->
          starts_with_any prefixesPHD (nfc line) = false ->
          canon_line nfc line = nfc line)
    /\ (forall line,
          starts_with_any prefixesMA (nfc line) = true ->
          canon_line nfc line = M3_maitrise).
Proof.
  intros nfc Hfix. unfold canon_line.
  rewrite (Hfix These_PhD), (Hfix Memoire_MA), (Hfix Something)
    by (vm_compute; reflexivity).
  split; [vm_compute; reflexivity|].
  split; [vm_compute; reflexivity|].
  split; [vm_compute; reflexivity|].
  split.
  - intros line HMA HPHD. cbv zeta. by rewrite HMA, HPHD.
  - intros line HMA. cbv zeta. by rewrite HMA.
Qed.

Lemma C6_witness :
  canon_line compose_e_accents These_PhD = M3_doctorat
  /\ canon_line compose_e_accents Memoire_MA = M3_maitrise
  /\ canon_line compose_e_accents Something = Something
  /\ canon_line compose_e_accents These_PhD_decomposed = M3_doctorat.
Proof.
  destruct (C6_degree_canonicalization compose_e_accents compose_e_accents_fixes)
    as (H1 & H2 & H3 & _ & _).
  split; [exact H1|]. split; [exact H2|]. split; [exact H3|].
  vm_compute. reflexivity.
Defined.

(** ** The pipeline on composed text *)

Lemma Forall_removelast {A : Type} (P : A -> Prop) (l : list A) :
  Forall P l -> Forall P (removelast l).
Proof.
  induction 1 as [|x l Hx Hl IH]; simpl; [constructor|].
  destruct l; [constructor|]. by constructor.
Qed.

Lemma Forall_record_body (P : str -> Prop) (rec : list str) :
  Forall P rec -> Forall P (record_body rec).
Proof.
  intros H. unfold record_body, body_of. apply Forall_removelast.
  destruct H; simpl; [constructor|done].
Qed.

Lemma composed_fixed (nfc : str -> str) (lines : list str) :
  fixes_composed nfc -> forallb composed lines = true ->
  Forall (fun l => nfc l = l) lines.
Proof.
  intros Hfix H. apply List.Forall_forall. intros l Hl. apply Hfix.
  rewrite forallb_forall in H. by apply H.
Qed.

Lemma processed_records_fixed (nfc : str -> str) (records : list (list str)) :
  Forall (fun rec => Forall (fun l => nfc l = l) (record_body rec)) records ->
  processed_records nfc records = processed_records (fun s => s) records.
Proof.
  unfold processed_records. rewrite !fold_left_append. cbn [app].
  induction 1 as [|rec records Hrec _ IH]; simpl; [done|].
  by rewrite clean_record_fixed, IH.
Qed.

Lemma canon_records_fixed (nfc : str -> str) (processed : list (list str)) :
  Forall (Forall (fun l => nfc l = l)) processed ->
  canon_records nfc processed = canon_records (fun s => s) processed.
Proof.
  unfold canon_records.
  induction 1 as [|rec processed Hrec _ IH]; simpl; [done|].
  rewrite IH. f_equal.
  induction Hrec as [|l rec Hl _ IHrec]; simpl; [done|].
  rewrite IHrec. f_equal. unfold canon_line. by rewrite Hl.
Qed.

(** On text without combining marks, NFC is out of the picture: the final
    records are those of the pipeline that normalizes nothing. *)
Lemma final_records_composed (nfc : str -> str) (records : list SourceRecord) :
  fixes_composed nfc ->
  all_composed (split_records (read_lines (temporary_ris records))) = true ->
  all_composed (processed_records (fun s => s)
                  (split_records (read_lines (temporary_ris records)))) = true ->
  final_records nfc records = final_records (fun s => s) records.
Proof.
  intros Hfix Hsplit Hproc. unfold final_records, all_composed in *.
  rewrite forallb_forall in Hsplit. rewrite forallb_forall in Hproc.
  rewrite processed_records_fixed.
  - apply canon_records_fixed. apply List.Forall_forall. intros rec Hrec.
    apply composed_fixed; [done|]. by apply Hproc.
  - apply List.Forall_forall. intros rec Hrec. apply Forall_record_body.
    apply composed_fixed; [done|]. by apply Hsplit.
Qed.

(** ** Two records in, three records out *)

(** C1, on the code: the pipeline on two equal records of one title gives
    three final records, the second of them made of two empty lines. *)
Theorem C1_two_records_give_three :
  forall nfc : str -> str,
    fixes_composed nfc ->
    final_records nfc [title_record; title_record] =
    [final_title_record; [[]; []]; final_title_record]
    /\ length (final_records nfc [title_record; title_record]) = 3.
Proof.
  intros nfc Hfix.
  rewrite final_records_composed by (done || (vm_compute; reflexivity)).
  split; vm_compute; reflexivity.
Qed.

Lemma C1_witness :
  length (final_records compose_e_accents [title_record; title_record]) = 3.
Proof.
  apply (C1_two_records_give_three compose_e_accents compose_e_accents_fixes).
Defined.

(** C2, on the code: the second final record of the same run has no line
    of tag TY and no line of tag ER: its first and its last line are empty. *)
Theorem C2_record_without_TY_and_ER :
  forall nfc : str -> str,
    fixes_composed nfc ->
    exists first second third,
      final_records nfc [title_record; title_record] = [first; second; third]
      /\ hd_error second = Some []
      /\ List.last second TY_THES = []
      /\ List.filter (fun l => starts_with (lit "TY") l || starts_with (lit "ER") l)
                     second = [].
Proof.
  intros nfc Hfix.
  exists final_title_record, [[]; []], final_title_record.
  rewrite final_records_composed by (done || (vm_compute; reflexivity)).
  repeat split; vm_compute; reflexivity.
Qed.

Lemma C2_witness :
  exists first second third,
    final_records compose_e_accents [title_record; title_record]
    = [first; second; third]
    /\ hd_error second = Some []
    /\ List.last second TY_THES = []
    /\ List.filter (fun l => starts_with (lit "TY") l || starts_with (lit "ER") l)
                   second = [].
Proof.
  apply (C2_record_without_TY_and_ER compose_e_accents compose_e_accents_fixes).
Defined.

(** C7, on the code: the second final record of the same run holds neither
    the line of the place nor the line of the publisher. *)
Theorem C7_record_without_CY_and_PB :
  forall nfc : str -> str,
    fixes_composed nfc ->
    map (fun rec => (count_line CY_Montreal rec,
                     count_line PB_UdeM rec))
        (final_records nfc [title_record; title_record])
    = [(1, 1); (0, 0); (1, 1)].
Proof.
  intros nfc Hfix.
  rewrite final_records_composed by (done || (vm_compute; reflexivity)).
  vm_compute. reflexivity.
Qed.

Lemma C7_witness :
  map (fun rec => (count_line CY_Montreal rec,
                   count_line PB_UdeM rec))
      (final_records compose_e_accents [title_record; title_record])
  = [(1, 1); (0, 0); (1, 1)].
Proof.
  apply (C7_record_without_CY_and_PB compose_e_accents compose_e_accents_fixes).
Defined.

(** ** Blank lines between records *)

Lemma join_snoc_app (sep : str) (l : list str) (x y : str) :
  join sep (l ++ [x ++ y]) = join sep (l ++ [x]) ++ y.
Proof.
  induction l as [|a l IH]; [done|].
  change (match l ++ [x ++ y] with
          | [] => a
          | _ :: _ => a ++ sep ++ join sep (l ++ [x ++ y])
          end =
          match l ++ [x] with
          | [] => a
          | _ :: _ => a ++ sep ++ join sep (l ++ [x])
          end ++ y).
  rewrite IH. destruct l; simpl; by rewrite <- ?app_assoc.
Qed.

Lemma final_text_from (final_records : list (list str)) (f : str) :
  fold_left (fun f rec =>
               fold_left (fun f line => f ++ (line ++ [LF])) rec f ++ [LF])
            final_records f =
  f ++ flat_map (fun rec => flat_map (fun line => line ++ [LF]) rec ++ [LF])
                final_records.
Proof.
  revert f. induction final_records as [|rec l IH]; intros f; simpl.
  - by rewrite app_nil_r.
  - by rewrite IH, fold_left_append, <- !app_assoc.
Qed.

Lemma record_text_eq (record : SourceRecord) :
  record_text record = join [LF] (ris_lines record) ++ [LF; LF].
Proof.
  unfold record_text, ris_lines. cbv zeta.
  rewrite ris_entries_eq.
  change [CY_Montreal; PB_UdeM; ER_entry]
    with ([CY_Montreal; PB_UdeM] ++ [lit "ER  - " ++ [LF]]).
  rewrite !app_assoc, join_snoc_app, <- !app_assoc. reflexivity.
Qed.

(** C3 as the code has it: the intermediate file is the texts of the
    records one after the other, and the text of a record is its lines, the
    last of them the line of tag ER, each ended by a line feed, and one
    empty line; the final file is, for every final record, its lines each
    ended by a line feed, and one empty line. *)
Theorem C3_empty_line_after_every_record :
  (forall records : list SourceRecord,
      temporary_ris records = flat_map record_text records)
  /\ (forall record : SourceRecord,
         record_text record = join [LF] (ris_lines record) ++ [LF; LF]
         /\ ris_lines record =
            [TY_THES] ++ flat_map (field_entries record) record
                      ++ [CY_Montreal; PB_UdeM; lit "ER  - "])
  /\ (forall final_records : list (list str),
         final_text final_records =
         flat_map (fun rec => flat_map (fun line => line ++ [LF]) rec ++ [LF])
                  final_records).
Proof.
  split; [apply temporary_ris_eq|]. split.
  - intros record. split; [apply record_text_eq|reflexivity].
  - intros final_records. unfold final_text. apply final_text_from.
Qed.

(** C3, against the claim: in the intermediate file of two records without
    fields, the line of tag ER of the first is followed by an empty line,
    not by the line of tag TY of the second. *)
Lemma C3_counterexample :
  read_lines (temporary_ris [[]; []]) =
    [TY_THES; CY_Montreal; PB_UdeM; lit "ER  - "; [];
     TY_THES; CY_Montreal; PB_UdeM; lit "ER  - "; []]
  /\ records_run_together (read_lines (temporary_ris [[]; []])) = false.
Proof. split; vm_compute; reflexivity. Qed.

(** ** Input without line breaks: the lines of the intermediate file *)

Lemma no_line_break_plain (s : str) : no_line_break s = true -> plain s.
Proof.
  unfold no_line_break, plain. rewrite forallb_forall, List.Forall_forall.
  intros H c Hc. specialize (H c Hc).
  apply andb_true_iff in H as [H1 H2].
  split; intros ->; done.
Qed.

Lemma rstrip_of_cons (p : N -> bool) (c : N) (s : str) :
  rstrip_of p (c :: s) =
  match rstrip_of p s with
  | [] => if p c then [] else [c]
  | _ :: _ => c :: rstrip_of p s
  end.
Proof. reflexivity. Qed.

Lemma rstrip_of_Forall (P : N -> Prop) (p : N -> bool) (s : str) :
  Forall P s -> Forall P (rstrip_of p s).
Proof.
  induction 1 as [|c s Hc Hs IH]; [constructor|].
  rewrite rstrip_of_cons. destruct (rstrip_of p s).
  - destruct (p c); by repeat constructor.
  - by constructor.
Qed.

Lemma lstrip_of_Forall (P : N -> Prop) (p : N -> bool) (s : str) :
  Forall P s -> Forall P (lstrip_of p s).
Proof.
  induction 1 as [|c s Hc Hs IH]; simpl; [constructor|].
  destruct (p c); [done|by constructor].
Qed.

Lemma join_Forall (P : N -> Prop) (sep : str) (l : list str) :
  Forall P sep -> Forall (Forall P) l -> Forall P (join sep l).
Proof.
  intros Hsep. induction 1 as [|x l Hx Hl IH]; [constructor|].
  cbn [join]. destruct l; [done|].
  apply Forall_app. split; [done|]. apply Forall_app. by split.
Qed.

Lemma replace_from_Forall (P : N -> Prop) (old new : str) (skip : nat) (s : str) :
  Forall P new -> Forall P s -> Forall P (replace_from old new skip s).
Proof.
  intros Hnew Hs. revert skip.
  induction Hs as [|c s Hc Hs IH]; intros skip; [constructor|].
  cbn [replace_from]. destruct skip; [|apply IH].
  destruct (starts_with old (c :: s)).
  - apply Forall_app. split; [done|apply IH].
  - constructor; [done|apply IH].
Qed.

Lemma get_subfields_plain (codes : list str) (field : Field) :
  plain_field field = true -> Forall plain (get_subfields codes field).
Proof.
  unfold plain_field, get_subfields. intros [H _]%andb_true_iff.
  rewrite forallb_forall in H.
  apply List.Forall_forall. intros v Hv.
  apply in_map_iff in Hv as (sf & <- & Hsf).
  apply filter_In in Hsf as [Hsf _].
  apply no_line_break_plain. by apply H.
Qed.

Lemma get_fields_plain (t : str) (record : SourceRecord) :
  plain_record record = true ->
  Forall (fun f => plain (field_text f)) (get_fields t record).
Proof.
  unfold plain_record, get_fields. rewrite forallb_forall. intros H.
  apply List.Forall_forall. intros f Hf.
  apply filter_In in Hf as [Hf _]. specialize (H f Hf).
  apply andb_true_iff in H as [_ H]. by apply no_line_break_plain.
Qed.

Lemma Forall_map_from {A B : Type} (Q : A -> Prop) (R : B -> Prop)
      (g : A -> B) (l : list A) :
  Forall Q l -> (forall x, Q x -> R (g x)) -> Forall R (map g l).
Proof. intros H Hg. induction H; simpl; constructor; auto. Qed.

Lemma Forall_flat_map_from {A B : Type} (Q : A -> Prop) (R : B -> Prop)
      (g : A -> list B) (l : list A) :
  Forall Q l -> (forall x, Q x -> Forall R (g x)) -> Forall R (flat_map g l).
Proof.
  intros H Hg. induction H; simpl; [constructor|].
  apply Forall_app. split; auto.
Qed.

(** A string put together from plain pieces is plain. *)
Ltac plain_pieces :=
  unfold plain in *;
  lazymatch goal with
  | |- Forall _ (_ ++ _) => apply Forall_app; split; plain_pieces
  | |- Forall _ (rstrip_chars _ _) => apply rstrip_of_Forall; plain_pieces
  | |- Forall _ (strip_chars _ _) =>
      apply rstrip_of_Forall, lstrip_of_Forall; plain_pieces
  | |- Forall _ (replace _ _ _) => apply replace_from_Forall; plain_pieces
  | |- Forall _ (join _ _) => apply join_Forall; plain_pieces
  | |- Forall _ (if ?b then _ else _) => destruct b; plain_pieces
  | |- Forall _ (get_subfields ?cs ?f) =>
      apply (get_subfields_plain cs f); assumption
  | |- _ => first [ assumption
                  | apply no_line_break_plain; vm_compute; reflexivity ]
  end.

Lemma language_lines_plain (sn : str) : Forall plain (language_lines sn).
Proof.
  unfold language_lines.
  destruct (contains (lit "fre") sn), (contains (lit "eng") sn); simpl;
    repeat (constructor; [plain_pieces|]); constructor.
Qed.

Lemma field_entries_plain (record : SourceRecord) (field : Field) :
  plain_record record = true -> plain_field field = true ->
  Forall plain (field_entries record field).
Proof.
  intros Hrecord Hfield. unfold field_entries, date_line.
  repeat match goal with
    | |- Forall plain (if ?b then _ else _) => destruct b
    | |- Forall plain (_ ++ _) => apply Forall_app; split
    | |- Forall plain (map _ (get_subfields ?cs field)) =>
        apply (Forall_map_from plain plain);
        [by apply get_subfields_plain | intros sn Hsn; cbv zeta; plain_pieces]
    | |- Forall plain (map _ (get_fields _ record)) =>
        apply (Forall_map_from (fun f => plain (field_text f)) plain);
        [by apply get_fields_plain | intros sn Hsn; cbv zeta; plain_pieces]
    | |- Forall plain (flat_map _ _) =>
        apply Forall_flat_map_intro; intros; apply language_lines_plain
    | |- Forall plain [] => constructor
    | |- Forall plain [_] => constructor; [cbv zeta; plain_pieces|constructor]
    end.
Qed.

Lemma universal_newlines_plain (s : str) :
  Forall (fun c => c <> CR) s -> universal_newlines false s = s.
Proof.
  induction 1 as [|c s Hc Hs IH]; [done|]. cbn [universal_newlines].
  destruct (N.eqb_spec c CR); [contradiction|].
  destruct (N.eqb_spec c LF) as [->|]; by rewrite IH.
Qed.

Lemma file_lines_line (l rest : str) :
  Forall (fun c => c <> LF) l ->
  file_lines (l ++ LF :: rest) = (l ++ [LF]) :: file_lines rest.
Proof.
  induction 1 as [|c l Hc Hl IH]; [done|].
  cbn [app file_lines]. destruct (N.eqb_spec c LF); [contradiction|].
  by rewrite IH.
Qed.

Lemma file_lines_of_lines (lines : list str) :
  Forall (Forall (fun c => c <> LF)) lines ->
  file_lines (flat_map (fun l => l ++ [LF]) lines) = map (fun l => l ++ [LF]) lines.
Proof.
  induction 1 as [|l lines Hl _ IH]; [done|]. cbn [flat_map map].
  rewrite <- app_assoc. cbn [app]. by rewrite file_lines_line, IH.
Qed.

Lemma rstrip_line_feed (l : str) :
  Forall (fun c => c <> LF) l -> rstrip_chars [LF] (l ++ [LF]) = l.
Proof.
  unfold rstrip_chars.
  induction 1 as [|c l Hc Hl IH]; [done|].
  cbn [app]. rewrite rstrip_of_cons, IH.
  destruct l; [|done].
  unfold in_chars. cbn [existsb]. destruct (N.eqb_spec c LF); [contradiction|].
  reflexivity.
Qed.

Lemma plain_no_LF (l : str) : plain l -> Forall (fun c => c <> LF) l.
Proof. intros H. eapply Forall_impl; [exact H|]. by intros c [? ?]. Qed.

Lemma plain_no_CR (l : str) : plain l -> Forall (fun c => c <> CR) l.
Proof. intros H. eapply Forall_impl; [exact H|]. by intros c [? ?]. Qed.

Lemma read_lines_of_lines (lines : list str) :
  Forall plain lines ->
  read_lines (flat_map (fun l => l ++ [LF]) lines) = lines.
Proof.
  intros H. unfold read_lines.
  rewrite universal_newlines_plain.
  - rewrite file_lines_of_lines.
    + induction H as [|l lines Hl _ IH]; [done|]. cbn [map].
      rewrite IH. f_equal. apply rstrip_line_feed. by apply plain_no_LF.
    + eapply Forall_impl; [exact H|]. apply plain_no_LF.
  - induction H as [|l lines Hl _ IH]; [constructor|]. cbn [flat_map].
    rewrite !Forall_app. split; [split|done].
    + by apply plain_no_CR.
    + by repeat constructor.
Qed.

Lemma join_lines (l : str) (lines : list str) :
  join [LF] (l :: lines) ++ [LF] = flat_map (fun l => l ++ [LF]) (l :: lines).
Proof.
  revert l. induction lines as [|l' lines IH]; intros l.
  - cbn. by rewrite app_nil_r.
  - change (join [LF] (l :: l' :: lines)) with (l ++ [LF] ++ join [LF] (l' :: lines)).
    rewrite <- !app_assoc, IH. cbn [flat_map]. by rewrite <- !app_assoc.
Qed.

Lemma record_text_lines (record : SourceRecord) :
  record_text record = flat_map (fun l => l ++ [LF]) (ris_lines record ++ [[]]).
Proof.
  rewrite record_text_eq, flat_map_app.
  change (ris_lines record)
    with (TY_THES :: (flat_map (field_entries record) record
                        ++ [CY_Montreal; PB_UdeM; lit "ER  - "])).
  rewrite <- join_lines, <- app_assoc. reflexivity.
Qed.

Lemma temporary_ris_lines (records : list SourceRecord) :
  temporary_ris records =
  flat_map (fun l => l ++ [LF])
           (flat_map (fun record => ris_lines record ++ [[]]) records).
Proof.
  rewrite temporary_ris_eq.
  induction records as [|record records IH]; [done|]. cbn [flat_map].
  by rewrite flat_map_app, IH, record_text_lines.
Qed.

Lemma ris_lines_plain (record : SourceRecord) :
  plain_record record = true -> Forall plain (ris_lines record).
Proof.
  intros H. unfold ris_lines. rewrite !Forall_app. split; [|split].
  - constructor; [plain_pieces|constructor].
  - apply Forall_flat_map_from with (Q := fun f => plain_field f = true).
    + unfold plain_record in H. rewrite forallb_forall in H.
      by apply List.Forall_forall.
    + intros f Hf. by apply field_entries_plain.
  - repeat (constructor; [plain_pieces|]). constructor.
Qed.

(** The lines read back from the intermediate file of records without line
    breaks: for every record its lines, the last of them the line of tag ER,
    and an empty line. *)
Lemma read_lines_temporary_ris (records : list SourceRecord) :
  forallb plain_record records = true ->
  read_lines (temporary_ris records) =
  flat_map (fun record => ris_lines record ++ [[]]) records.
Proof.
  intros H. rewrite temporary_ris_lines. apply read_lines_of_lines.
  rewrite forallb_forall in H.
  apply Forall_flat_map_from with (Q := fun r => plain_record r = true).
  - by apply List.Forall_forall.
  - intros r Hr. apply Forall_app. split; [by apply ris_lines_plain|].
    by repeat constructor.
Qed.


(** ** Input without line breaks: the records the splitter finds *)

Lemma ris_lines_middle (record : SourceRecord) :
  ris_lines record = TY_THES :: record_middle record ++ [lit "ER  - "].
Proof. unfold ris_lines, record_middle. by rewrite <- !app_assoc. Qed.

Lemma record_middle_tags (record : SourceRecord) :
  Forall (fun l => has_tag middle_tags l = true) (record_middle record).
Proof.
  unfold record_middle, middle_tags, has_tag. apply Forall_app. split.
  - apply Forall_flat_map_intro. intros f.
    eapply Forall_impl; [apply field_entries_tags|].
    intros l Hl. rewrite existsb_app. apply orb_true_iff. left. exact Hl.
  - repeat (constructor; [vm_compute; reflexivity|]). constructor.
Qed.

Lemma rstrip_of_keeps (p : N -> bool) (c : N) (s : str) :
  p c = false -> rstrip_of p (c :: s) = c :: rstrip_of p s.
Proof.
  intros Hc. rewrite rstrip_of_cons, Hc. by destruct (rstrip_of p s).
Qed.

Lemma strip_keeps_tag (a b : N) (rest : str) :
  is_space a = false -> is_space b = false ->
  strip (a :: b :: rest) = a :: b :: rstrip_of is_space rest.
Proof.
  intros Ha Hb. unfold strip. cbn [lstrip_of]. rewrite Ha.
  by rewrite !rstrip_of_keeps.
Qed.

Lemma starts_with_two (a b : N) (p : str) (l : str) :
  starts_with (a :: b :: p) l = true -> exists rest, l = a :: b :: rest.
Proof.
  destruct l as [|c1 [|c2 rest]]; cbn [starts_with]; try done.
  - by rewrite andb_false_r.
  - intros [H1 [H2 _]%andb_true_iff]%andb_true_iff.
    apply N.eqb_eq in H1, H2. subst. by exists rest.
Qed.

(** A line of the middle of a record opens no record and closes none. *)
Lemma middle_line_step (l : str) :
  has_tag middle_tags l = true ->
  starts_with (lit "TY  -") (strip l) = false
  /\ starts_with (lit "ER  -") (strip l) = false.
Proof.
  unfold has_tag, middle_tags, field_tags. cbn [map app existsb].
  rewrite !orb_true_iff. intros H.
  repeat destruct H as [H|H]; try discriminate H;
    apply starts_with_two in H as [rest ->];
    rewrite strip_keeps_tag by reflexivity; split; reflexivity.
Qed.

Lemma split_middle (middle : list str) (records : list (list str)) (current : list str) :
  Forall (fun l => has_tag middle_tags l = true) middle ->
  fold_left split_step middle (records, current) = (records, current ++ middle).
Proof.
  intros H. revert current.
  induction H as [|l middle Hl _ IH]; intros current.
  - by rewrite app_nil_r.
  - cbn [fold_left]. unfold split_step at 2.
    destruct (middle_line_step l Hl) as [-> ->].
    by rewrite IH, <- app_assoc.
Qed.

(** The splitter on the lines of one record and the empty line after them. *)
Lemma split_one_record (record : SourceRecord)
      (records : list (list str)) (current : list str) :
  fold_left split_step (ris_lines record ++ [[]]) (records, current) =
  (match current with [] => records | _ :: _ => records ++ [current] end
     ++ [ris_lines record],
   [[]]).
Proof.
  rewrite ris_lines_middle. cbn [app fold_left].
  change (split_step (records, current) TY_THES)
    with (match current with [] => records | _ :: _ => records ++ [current] end,
          [TY_THES]).
  rewrite <- app_assoc, fold_left_app, split_middle by apply record_middle_tags.
  reflexivity.
Qed.

Lemma split_more_records (more : list SourceRecord) (records : list (list str)) :
  fold_left split_step (flat_map (fun record => ris_lines record ++ [[]]) more)
            (records, [[]]) =
  (records ++ flat_map (fun record => [[[]]; ris_lines record]) more, [[]]).
Proof.
  revert records. induction more as [|record more IH]; intros records.
  - by rewrite app_nil_r.
  - cbn [flat_map]. rewrite fold_left_app, split_one_record, IH.
    by rewrite <- !app_assoc.
Qed.

Lemma split_records_plain (records : list SourceRecord) :
  forallb plain_record records = true ->
  split_records (read_lines (temporary_ris records)) =
  between [[]] (map ris_lines records).
Proof.
  intros H. rewrite read_lines_temporary_ris by done. unfold split_records.
  destruct records as [|record more]; [done|].
  cbn [flat_map]. rewrite fold_left_app, split_one_record, split_more_records.
  cbn [fst app map between]. f_equal.
  clear. induction more as [|r more IH]; [done|]. cbn [flat_map map app].
  by rewrite IH.
Qed.

(** X4: the records found in the lines of the intermediate file of records
    without line breaks: between the lines of two records, a record of one
    empty line. *)
Theorem split_records_temporary_ris :
  forall records : list SourceRecord,
    forallb plain_record records = true ->
    split_records (read_lines (temporary_ris records)) =
    between [[]] (map ris_lines records).
Proof. apply split_records_plain. Qed.

Lemma split_records_temporary_ris_witness :
  split_records (read_lines (temporary_ris [title_record; two_keywords])) =
  between [[]] (map ris_lines [title_record; two_keywords]).
Proof.
  apply (split_records_temporary_ris [title_record; two_keywords]).
  reflexivity.
Defined.

(** ** Input without line breaks: the final records *)

Lemma clean_record_ris_lines (nfc : str -> str) (record : SourceRecord) :
  clean_record nfc (ris_lines record) =
  [[TY_THES] ++ merge_abstracts (sorted_set (map nfc (record_middle record)))
             ++ [lit "ER  - "]].
Proof.
  rewrite ris_lines_middle. unfold clean_record, last_line, body_of.
  by rewrite last_last, removelast_last.
Qed.

Lemma clean_record_empty_line (nfc : str -> str) :
  clean_record nfc [[]] = [[[]; []]].
Proof. by vm_compute. Qed.

Lemma flat_map_between {A B C : Type} (f : B -> list C) (h : A -> B) (g : A -> C)
      (sep : B) (sep' : C) (l : list A) :
  f sep = [sep'] -> (forall x, f (h x) = [g x]) ->
  flat_map f (between sep (map h l)) = between sep' (map g l).
Proof.
  intros Hsep Hf. destruct l as [|x l]; [done|].
  cbn [map between flat_map]. rewrite Hf. cbn [app]. f_equal.
  induction l as [|y l IH]; [done|].
  cbn [map flat_map app]. by rewrite Hsep, Hf, IH.
Qed.

Lemma map_between {A B : Type} (f : A -> B) (sep : A) (l : list A) :
  map f (between sep l) = between (f sep) (map f l).
Proof.
  destruct l as [|x l]; [done|]. cbn [map between]. f_equal.
  induction l as [|y l IH]; [done|]. cbn [map flat_map app]. by rewrite IH.
Qed.

Lemma length_between {A : Type} (sep : A) (l : list A) :
  length (between sep l) = 2 * length l - 1.
Proof.
  destruct l as [|x l]; [done|]. cbn [between length].
  assert (length (flat_map (fun y => [sep; y]) l) = 2 * length l) as ->; [|lia].
  induction l as [|y l IH]; [done|]. cbn [flat_map app length]. lia.
Qed.

(** X1: the final records of records without line breaks: the final record
    of every source record, in the order of the source, and between two of
    them a record of two lines, both the canonicalizer's image of the empty
    line. *)
Theorem final_records_without_line_breaks :
  forall (nfc : str -> str) (records : list SourceRecord),
    forallb plain_record records = true ->
    final_records nfc records =
    between (map (canon_line nfc) [[]; []]) (map (final_record nfc) records)
    /\ length (final_records nfc records) = 2 * length records - 1.
Proof.
  intros nfc records H.
  assert (final_records nfc records =
          between (map (canon_line nfc) [[]; []])
                  (map (final_record nfc) records)) as Heq.
  { unfold final_records. rewrite split_records_plain by done.
    unfold processed_records. rewrite fold_left_append. cbn [app].
    rewrite (flat_map_between (clean_record nfc) ris_lines
               (fun record => [TY_THES]
                  ++ merge_abstracts (sorted_set (map nfc (record_middle record)))
                  ++ [lit "ER  - "]) [[]] [[]; []]).
    - unfold canon_records. rewrite map_between, map_map. reflexivity.
    - apply clean_record_empty_line.
    - apply clean_record_ris_lines. }
  split; [done|]. by rewrite Heq, length_between, length_map.
Qed.

Lemma final_records_without_line_breaks_witness :
  final_records compose_e_accents [title_record; two_keywords; title_record] =
  between (map (canon_line compose_e_accents) [[]; []])
          (map (final_record compose_e_accents)
               [title_record; two_keywords; title_record])
  /\ length (final_records compose_e_accents
               [title_record; two_keywords; title_record]) = 5.
Proof.
  apply (final_records_without_line_breaks compose_e_accents
           [title_record; two_keywords; title_record]).
  reflexivity.
Defined.

(** ** The final record of a source record *)

Lemma starts_with_app (p l : str) :
  starts_with p l = true <-> exists v, l = p ++ v.
Proof.
  revert l. induction p as [|a p IH]; intros l.
  - split; [by exists l|done].
  - destruct l as [|b l]; cbn [starts_with].
    + split; [done|]. by intros [v Hv].
    + rewrite andb_true_iff, IH, N.eqb_eq. split.
      * intros [-> [v ->]]. by exists v.
      * intros [v Hv]. injection Hv as -> ->. split; [done|by exists v].
Qed.

Lemma count_line_NoDup (x : str) (l : list str) :
  NoDup l -> In x l -> count_line x l = 1.
Proof.
  unfold count_line. induction 1 as [|y l Hy Hl IH]; [done|].
  cbn [List.filter]. intros [->|Hx].
  - rewrite bool_decide_eq_true_2 by done. cbn [length]. f_equal.
    rewrite filter_none; [done|].
    apply List.Forall_forall. intros z Hz. apply bool_decide_eq_false_2.
    intros ->. apply Hy. by apply list_elem_of_In.
  - rewrite bool_decide_eq_false_2; [by apply IH|].
    intros ->. apply Hy. by apply list_elem_of_In.
Qed.

Lemma count_line_app (x : str) (l1 l2 : list str) :
  count_line x (l1 ++ l2) = count_line x l1 + count_line x l2.
Proof. unfold count_line. by rewrite List.filter_app, length_app. Qed.

Lemma count_line_map (f : str -> str) (x : str) (l : list str) :
  Forall (fun y => f y = x <-> y = x) l ->
  count_line x (map f l) = count_line x l.
Proof.
  unfold count_line. induction 1 as [|y l Hy _ IH]; [done|].
  cbn [map List.filter].
  destruct (decide (y = x)) as [->|Hne].
  - rewrite !bool_decide_eq_true_2; [|done|by apply Hy].
    cbn [length]. by rewrite IH.
  - rewrite !bool_decide_eq_false_2; [done|done|].
    intros Hf. by apply Hne, Hy.
Qed.

Lemma count_line_filter (p : str -> bool) (x : str) (l : list str) :
  p x = true -> count_line x (List.filter p l) = count_line x l.
Proof.
  intros Hp. unfold count_line. induction l as [|y l IH]; [done|].
  cbn [List.filter]. destruct (decide (y = x)) as [->|Hne].
  - rewrite Hp. cbn [List.filter]. rewrite bool_decide_eq_true_2 by done.
    cbn [length]. by rewrite IH.
  - rewrite (bool_decide_eq_false_2 (y = x)) by done.
    destruct (p y); [|done]. cbn [List.filter].
    by rewrite bool_decide_eq_false_2.
Qed.

Lemma compose_e_accents_keeps_head : keeps_head compose_e_accents.
Proof.
  intros a b s Ha Hb. apply N.ltb_lt in Hb.
  change (compose_e_accents (a :: b :: s))
    with (match compose_e_accents (b :: s) with
          | m :: tail' =>
              if N.eqb a 101 && N.eqb m 768 then e_grave :: tail'
              else if N.eqb a 101 && N.eqb m 769 then e_acute :: tail'
              else a :: compose_e_accents (b :: s)
          | [] => [a]
          end).
  assert (exists m tail', compose_e_accents (b :: s) = m :: tail'
                          /\ m <> 768%N /\ m <> 769%N) as (m & tail' & -> & H8 & H9).
  { change (compose_e_accents (b :: s))
      with (match compose_e_accents s with
            | m :: tail' =>
                if N.eqb b 101 && N.eqb m 768 then e_grave :: tail'
                else if N.eqb b 101 && N.eqb m 769 then e_acute :: tail'
                else b :: compose_e_accents s
            | [] => [b]
            end).
    destruct (compose_e_accents s) as [|m tail'].
    - exists b, []. repeat split; lia.
    - destruct (N.eqb b 101 && N.eqb m 768);
        [|destruct (N.eqb b 101 && N.eqb m 769)];
        eexists _, _; (split; [reflexivity|]); unfold e_grave, e_acute; lia. }
  destruct (N.eqb_spec m 768); [done|]. destruct (N.eqb_spec m 769); [done|].
  by rewrite !andb_false_r.
Qed.

Section FinalRecord.

Variable nfc : str -> str.
Hypothesis nfc_fixes : fixes_composed nfc.
Hypothesis nfc_head : keeps_head nfc.

Lemma nfc_keeps_prefix (p : str) (c : N) (s : str) :
  composed (p ++ [c]) = true -> nfc (p ++ c :: s) = p ++ nfc (c :: s).
Proof.
  unfold composed. induction p as [|a p IH]; [done|].
  cbn [app forallb]. intros [Ha Hp]%andb_true_iff.
  rewrite <- IH by done.
  destruct p as [|b p]; cbn [app forallb] in *;
    apply andb_true_iff in Hp as [Hb _]; by apply nfc_head.
Qed.

(** In the goal, [t] is one of the tags of [middle_tags]. *)
Ltac each_tag H :=
  unfold middle_tags, field_tags in H; cbn [map app In] in H;
  repeat destruct H as [<-|H]; [..|destruct H].

Lemma nfc_tagged (t v : str) :
  In t middle_tags ->
  nfc ((t ++ lit "  - ") ++ v) = (t ++ lit "  -") ++ nfc (32%N :: v).
Proof.
  intros H. each_tag H;
    match goal with
    | |- nfc ((?t ++ _) ++ _) = _ =>
        exact (nfc_keeps_prefix (t ++ lit "  -") 32%N v eq_refl)
    end.
Qed.

Lemma nfc_tagged_again (t w : str) :
  In t middle_tags ->
  nfc ((t ++ lit "  -") ++ w) = (t ++ lit "  ") ++ nfc (45%N :: w).
Proof.
  intros H. each_tag H;
    match goal with
    | |- nfc ((?t ++ _) ++ _) = _ =>
        exact (nfc_keeps_prefix (t ++ lit "  ") 45%N w eq_refl)
    end.
Qed.

Lemma record_middle_tagged (record : SourceRecord) (l0 : str) :
  In l0 (record_middle record) ->
  exists t v, In t middle_tags /\ l0 = (t ++ lit "  - ") ++ v
              /\ (t = lit "CY" -> l0 = CY_Montreal)
              /\ (t = lit "PB" -> l0 = PB_UdeM).
Proof.
  unfold record_middle. rewrite in_app_iff. intros [H|H].
  - assert (has_tag field_tags l0 = true) as Htag.
    { pose proof (Forall_flat_map_intro _ _ record
                    (field_entries_tags record)) as HF.
      rewrite List.Forall_forall in HF. by apply HF. }
    unfold has_tag in Htag. apply existsb_exists in Htag as (t & Ht & Hl0).
    apply starts_with_app in Hl0 as [v ->].
    exists t, v. split; [unfold middle_tags; apply in_or_app; by left|].
    split; [done|].
    unfold field_tags in Ht. cbn [map In] in Ht.
    repeat destruct Ht as [<-|Ht]; try destruct Ht; split; intros; discriminate.
  - cbn [In] in H. destruct H as [<-|[<-|[]]].
    + exists (lit "CY"), (lit "Montr" ++ [e_acute] ++ lit "al").
      split; [unfold middle_tags; apply in_or_app; right; by left|].
      repeat split; by intros.
    + exists (lit "PB"),
        (lit "Universit" ++ [e_acute] ++ lit " de Montr" ++ [e_acute] ++ lit "al").
      split; [unfold middle_tags; apply in_or_app; right; right; by left|].
      repeat split; by intros.
Qed.

Lemma canon_fixed (l : str) :
  composed l = true -> canon_line nfc l = canon_line (fun s => s) l.
Proof. intros H. unfold canon_line. by rewrite nfc_fixes. Qed.

Lemma body_norm_tagged (record : SourceRecord) (l : str) :
  In l (sorted_set (map nfc (record_middle record))) ->
  exists t, In t middle_tags /\ tagged t l.
Proof.
  rewrite sorted_set_In, in_map_iff. intros (l0 & <- & Hl0).
  apply record_middle_tagged in Hl0 as (t & v & Ht & -> & HCY & HPB).
  exists t. split; [done|]. split; [|split].
  - exists (nfc (32%N :: v)). by apply nfc_tagged.
  - intros E. rewrite (HCY E). by apply nfc_fixes.
  - intros E. rewrite (HPB E). by apply nfc_fixes.
Qed.

Lemma new_body_tagged (record : SourceRecord) (l : str) :
  In l (merge_abstracts (sorted_set (map nfc (record_middle record)))) ->
  exists t, In t middle_tags /\ tagged t l.
Proof.
  rewrite merge_abstracts_eq, in_app_iff. intros [H|H].
  - apply filter_In in H as [H _]. by apply body_norm_tagged in H.
  - destruct (List.filter is_long_abstract _) as [|x long]; [done|].
    destruct H as [<-|[]]. exists (lit "AB").
    split; [unfold middle_tags, field_tags; cbn [map app In]; tauto|].
    split; [|split; intros; discriminate].
    by exists (32%N :: join [LF; LF] (map content_of (x :: long))).
Qed.

(** What the canonicalizer makes of a line of the middle of a record. *)
Lemma canon_tagged (t l : str) :
  In t middle_tags -> tagged t l ->
  starts_with (lit "TY") (canon_line nfc l) = false
  /\ starts_with (lit "ER") (canon_line nfc l) = false
  /\ (canon_line nfc l = CY_Montreal <-> l = CY_Montreal)
  /\ (canon_line nfc l = PB_UdeM <-> l = PB_UdeM).
Proof.
  intros Ht ([w Hw] & HCY & HPB).
  assert (canon_line nfc CY_Montreal = CY_Montreal) as ECY
    by (rewrite canon_fixed; vm_compute; reflexivity).
  assert (canon_line nfc PB_UdeM = PB_UdeM) as EPB
    by (rewrite canon_fixed; vm_compute; reflexivity).
  assert (canon_line nfc l = M3_maitrise \/ canon_line nfc l = M3_doctorat
          \/ canon_line nfc l = (t ++ lit "  ") ++ nfc (45%N :: w)) as Hcanon.
  { assert (nfc l = (t ++ lit "  ") ++ nfc (45%N :: w)) as <-
      by (rewrite Hw; by apply nfc_tagged_again).
    unfold canon_line. cbv zeta.
    destruct (starts_with_any prefixesMA (nfc l)); [by left|].
    destruct (starts_with_any prefixesPHD (nfc l)); [right; by left|].
    right; by right. }
  assert (forall r, (r = M3_maitrise \/ r = M3_doctorat
                     \/ r = (t ++ lit "  ") ++ nfc (45%N :: w)) ->
            starts_with (lit "TY") r = false
            /\ starts_with (lit "ER") r = false
            /\ (r = CY_Montreal -> t = lit "CY")
            /\ (r = PB_UdeM -> t = lit "PB")) as Hr.
  { intros r [-> | [-> | ->]].
    - split; [reflexivity|]. split; [reflexivity|]. split; intros E; discriminate E.
    - split; [reflexivity|]. split; [reflexivity|]. split; intros E; discriminate E.
    - clear -Ht. each_tag Ht;
        (split; [reflexivity|]; split; [reflexivity|]; split; intros E;
         first [reflexivity | discriminate E]). }
  destruct (Hr _ Hcanon) as (HTY & HER & HtCY & HtPB).
  split; [done|]. split; [done|]. split; split.
  - intros E. by apply HCY, HtCY.
  - by intros ->.
  - intros E. by apply HPB, HtPB.
  - by intros ->.
Qed.

Lemma canon_first_and_last :
  canon_line nfc TY_THES = TY_THES /\ canon_line nfc (lit "ER  - ") = lit "ER  - ".
Proof. split; rewrite canon_fixed; vm_compute; reflexivity. Qed.

Lemma new_body_count (record : SourceRecord) (x : str) :
  x = CY_Montreal \/ x = PB_UdeM ->
  count_line x (merge_abstracts (sorted_set (map nfc (record_middle record)))) = 1.
Proof.
  intros Hx.
  assert (In x (record_middle record) /\ nfc x = x
          /\ negb (is_long_abstract x) = true
          /\ forall y, lit "AB  - " ++ y <> x) as (Hin & Hnfc & Hshort & HAB).
  { unfold record_middle. destruct Hx as [-> | ->].
    - split; [apply in_or_app; right; by left|].
      split; [by apply nfc_fixes|]. split; [reflexivity|]. intros y E. discriminate E.
    - split; [apply in_or_app; right; right; by left|].
      split; [by apply nfc_fixes|]. split; [reflexivity|]. intros y E. discriminate E. }
  rewrite merge_abstracts_eq, count_line_app, count_line_filter by done.
  rewrite count_line_NoDup.
  - destruct (List.filter is_long_abstract _); [done|].
    unfold count_line. cbn [List.filter].
    rewrite bool_decide_eq_false_2 by apply HAB. reflexivity.
  - apply sorted_set_NoDup.
  - apply sorted_set_In, in_map_iff. by exists x.
Qed.



End FinalRecord.



(** ** The splitter on any lines (lines 253-267) *)

Lemma split_step_cases (records : list (list str)) (current : list str) (line : str) :
  split_step (records, current) line =
  if opens_record line
  then (match current with [] => records | _ :: _ => records ++ [current] end, [line])
  else if closes_record line
       then (records ++ [current ++ [line]], [])
       else (records, current ++ [line]).
Proof. reflexivity. Qed.

Lemma opens_not_closes (line : str) :
  opens_record line = true -> closes_record line = false.
Proof.
  unfold opens_record, closes_record.
  destruct (strip line) as [|c s]; [done|]. cbn [starts_with].
  intros [H _]%andb_true_iff. apply N.eqb_eq in H. by subst.
Qed.

Lemma split_partition_from (lines : list str) (records : list (list str))
      (current : list str) :
  let st := fold_left split_step lines (records, current) in
  concat (fst st) ++ snd st = concat records ++ current ++ lines.
Proof.
  revert records current.
  induction lines as [|line lines IH]; intros records current; cbn [fold_left].
  - by rewrite app_nil_r.
  - rewrite split_step_cases.
    destruct (opens_record line); [|destruct (closes_record line)];
      cbv zeta in IH |- *; rewrite IH.
    + destruct current; [done|].
      rewrite concat_app. cbn [concat]. by rewrite app_nil_r, <- !app_assoc.
    + rewrite concat_app. cbn [concat]. by rewrite app_nil_r, <- !app_assoc.
    + by rewrite <- !app_assoc.
Qed.

(** X5: the splitter cuts the lines and loses none before the end: the
    records one after the other, followed by what the loop leaves in
    [current], are the lines it read, in their order. *)
Theorem split_records_partition :
  forall lines : list str,
    concat (split_records lines) ++ snd (split_state lines) = lines
    /\ split_records lines = fst (split_state lines).
Proof.
  intros lines. split; [|reflexivity].
  apply (split_partition_from lines [] []).
Qed.

Lemma Forall_removelast_snoc {A : Type} (P : A -> Prop) (l : list A) (x : A) :
  Forall P l -> Forall P (removelast (l ++ [x])).
Proof. intros H. by rewrite removelast_last. Qed.

Lemma split_shape_from (lines : list str) (records : list (list str))
      (current : list str) :
  Forall record_shape records ->
  Forall (fun l => opens_record l = false) (tl current) ->
  Forall (fun l => closes_record l = false) current ->
  Forall record_shape (fst (fold_left split_step lines (records, current))).
Proof.
  revert records current.
  induction lines as [|line lines IH]; intros records current HR Ho Hc;
    cbn [fold_left]; [done|].
  rewrite split_step_cases.
  destruct (opens_record line) eqn:Eo; [|destruct (closes_record line) eqn:Ec].
  - apply IH.
    + destruct current as [|c current]; [done|].
      apply Forall_app. split; [done|]. constructor; [|constructor].
      split; [done|]. split; [done|]. by apply Forall_removelast.
    + constructor.
    + constructor; [by apply opens_not_closes|constructor].
  - apply IH; [|constructor|constructor].
    apply Forall_app. split; [done|]. constructor; [|constructor].
    split; [by destruct current|]. split.
    + destruct current as [|c current]; [constructor|]. cbn [app tl] in *.
      apply Forall_app. split; [done|]. by constructor.
    + by apply Forall_removelast_snoc.
  - apply IH; [done| |].
    + destruct current as [|c current]; [constructor|]. cbn [app tl] in *.
      apply Forall_app. split; [done|]. by constructor.
    + apply Forall_app. split; [done|]. by constructor.
Qed.

Lemma processed_records_length (nfc : str -> str) (records : list (list str)) :
  Forall (fun rec => rec <> []) records ->
  length (processed_records nfc records) = length records.
Proof.
  unfold processed_records. rewrite fold_left_append. cbn [app].
  induction 1 as [|rec records Hrec _ IH]; [done|].
  destruct rec; [done|]. cbn [flat_map clean_record app length]. by rewrite IH.
Qed.

(** X6: whatever the lines, every record the splitter gives has a line, a
    line that opens a record only as its first line and a line that closes
    one only as its last line; so the test of line 272 skips none of them
    and there are as many cleaned records as records. *)
Theorem split_records_shape :
  forall (nfc : str -> str) (lines : list str),
    Forall record_shape (split_records lines)
    /\ length (processed_records nfc (split_records lines))
       = length (split_records lines).
Proof.
  intros nfc lines.
  assert (Forall record_shape (split_records lines)) as H
    by (apply split_shape_from; constructor).
  split; [done|]. apply processed_records_length.
  eapply Forall_impl; [exact H|]. by intros rec [? _].
Qed.

Lemma split_tail_from (tail : list str) (records : list (list str)) (current : list str) :
  Forall (fun l => opens_record l = false /\ closes_record l = false) tail ->
  fold_left split_step tail (records, current) = (records, current ++ tail).
Proof.
  intros H. revert current.
  induction H as [|l tail [Ho Hc] _ IH]; intros current; cbn [fold_left].
  - by rewrite app_nil_r.
  - by rewrite split_step_cases, Ho, Hc, IH, <- app_assoc.
Qed.

(** X7: lines at the end that neither open nor close a record are in no
    record: what [current] holds when the loop ends is never appended, so
    a last record without its line of tag ER is lost. *)
Theorem split_records_drops_open_tail :
  forall lines tail : list str,
    Forall (fun l => opens_record l = false /\ closes_record l = false) tail ->
    split_records (lines ++ tail) = split_records lines
    /\ snd (split_state (lines ++ tail)) = snd (split_state lines) ++ tail.
Proof.
  intros lines tail H. unfold split_records, split_state.
  rewrite fold_left_app.
  destruct (fold_left split_step lines ([], [])) as [records current].
  by rewrite split_tail_from.
Qed.

Lemma split_records_drops_open_tail_witness :
  split_records ([TY_THES; lit "ER  - "] ++ [lit "TI  - A title"; CY_Montreal])
  = split_records [TY_THES; lit "ER  - "]
  /\ snd (split_state ([TY_THES; lit "ER  - "] ++ [lit "TI  - A title"; CY_Montreal]))
     = snd (split_state [TY_THES; lit "ER  - "]) ++ [lit "TI  - A title"; CY_Montreal].
Proof.
  apply (split_records_drops_open_tail
           [TY_THES; lit "ER  - "] [lit "TI  - A title"; CY_Montreal]).
  repeat constructor.
Defined.

(** ** The cleaned body does not depend on the order of the input body *)

Lemma sorted_set_ext (l1 l2 : list str) :
  (forall x, In x l1 <-> In x l2) -> sorted_set l1 = sorted_set l2.
Proof.
  intros H. unfold sorted_set. f_equal. f_equal.
  apply set_eq. intros x. rewrite !elem_of_list_to_set, !list_elem_of_In.
  apply H.
Qed.

Lemma record_body_snoc (ty er : str) (body : list str) :
  record_body (ty :: body ++ [er]) = body.
Proof. unfold record_body, body_of. cbn [tl]. apply removelast_last. Qed.

(** X8: two records with the same first line, the same last line and body
    lines that are the same set once normalized are cleaned into the same
    record: neither the order of the body lines nor how often a line
    stands there shows in the output, and sorting what is sorted already
    changes nothing. *)
Theorem clean_record_order_independent :
  forall (nfc : str -> str) (ty er : str) (body1 body2 : list str),
    (forall x, In x (map nfc body1) <-> In x (map nfc body2)) ->
    clean_record nfc (ty :: body1 ++ [er]) = clean_record nfc (ty :: body2 ++ [er])
    /\ sorted_set (sorted_set (map nfc body1)) = sorted_set (map nfc body1).
Proof.
  intros nfc ty er body1 body2 H. split.
  - unfold clean_record, last_line.
    change (body_of (body1 ++ [er])) with (record_body (ty :: body1 ++ [er])).
    change (body_of (body2 ++ [er])) with (record_body (ty :: body2 ++ [er])).
    rewrite !record_body_snoc, !last_last.
    by rewrite (sorted_set_ext _ _ H).
  - apply sorted_set_ext. intros x. apply sorted_set_In.
Qed.

Lemma clean_record_order_independent_witness :
  clean_record compose_e_accents
    (TY_THES :: [PB_UdeM; CY_Montreal; PB_UdeM; These_PhD_decomposed] ++ [lit "ER  - "])
  = clean_record compose_e_accents
      (TY_THES :: [These_PhD; CY_Montreal; PB_UdeM] ++ [lit "ER  - "]).
Proof.
  apply (clean_record_order_independent compose_e_accents TY_THES (lit "ER  - ")
           [PB_UdeM; CY_Montreal; PB_UdeM; These_PhD_decomposed]
           [These_PhD; CY_Montreal; PB_UdeM]).
  intros x. vm_compute. tauto.
Defined.

(** ** The merged abstract is the one long abstract left *)

Lemma split_from_app_space (cur a b : str) (ws : N) :
  is_space ws = true ->
  length (split_from cur (a ++ ws :: b)) =
  length (split_from cur a) + length (split_from [] b).
Proof.
  intros Hws. revert cur.
  induction a as [|c a IH]; intros cur; cbn [app split_from].
  - rewrite Hws. by destruct cur.
  - destruct (is_space c); [|apply IH].
    destruct cur; cbn [length]; by rewrite IH.
Qed.

Lemma split_lstrip (s : str) :
  split_from [] (lstrip_of is_space s) = split_from [] s.
Proof.
  induction s as [|c s IH]; [done|]. cbn [lstrip_of].
  destruct (is_space c) eqn:E; cbn [split_from]; by rewrite E.
Qed.

Lemma rstrip_of_nil (p : N -> bool) (c : N) (s : str) :
  rstrip_of p (c :: s) = [] -> p c = true /\ rstrip_of p s = [].
Proof.
  rewrite rstrip_of_cons. destruct (rstrip_of p s); [|done].
  by destruct (p c).
Qed.

Lemma split_from_spaces (cur s : str) :
  rstrip_of is_space s = [] -> split_from cur s = split_from cur [].
Proof.
  revert cur. induction s as [|c s IH]; intros cur H; [done|].
  apply rstrip_of_nil in H as [Hc Hs]. cbn [split_from]. rewrite Hc.
  rewrite (IH [] Hs). by destruct cur.
Qed.

Lemma split_cons_congr (c : N) (cur s s' : str) :
  (forall cur, split_from cur s' = split_from cur s) ->
  split_from cur (c :: s') = split_from cur (c :: s).
Proof.
  intros H. cbn [split_from]. destruct (is_space c); [|apply H].
  destruct cur; by rewrite H.
Qed.

Lemma split_rstrip (cur s : str) :
  split_from cur (rstrip_of is_space s) = split_from cur s.
Proof.
  revert cur. induction s as [|c s IH]; intros cur; [done|].
  rewrite rstrip_of_cons. destruct (rstrip_of is_space s) as [|d t] eqn:E.
  - destruct (is_space c) eqn:Hc.
    + symmetry. apply split_from_spaces. by rewrite rstrip_of_cons, E, Hc.
    + cbn [split_from]. rewrite Hc. symmetry. by apply split_from_spaces.
  - by apply split_cons_congr.
Qed.

Lemma word_count_strip (s : str) : word_count (strip s) = word_count s.
Proof.
  unfold word_count, strip, split. by rewrite split_rstrip, split_lstrip.
Qed.

Lemma word_count_join (c : str) (cs : list str) :
  word_count c <= word_count (join [LF; LF] (c :: cs)).
Proof.
  destruct cs as [|c' cs]; [done|].
  change (join [LF; LF] (c :: c' :: cs))
    with (c ++ LF :: (LF :: join [LF; LF] (c' :: cs))).
  unfold word_count, split. rewrite split_from_app_space by done. lia.
Qed.

Lemma rstrip_of_idemp (p : N -> bool) (s : str) :
  rstrip_of p (rstrip_of p s) = rstrip_of p s.
Proof.
  induction s as [|c s IH]; [done|]. rewrite rstrip_of_cons.
  destruct (rstrip_of p s) as [|d t] eqn:E.
  - destruct (p c) eqn:Hc; [done|]. cbn. by rewrite Hc.
  - by rewrite rstrip_of_cons, IH.
Qed.

Lemma rstrip_of_app (p : N -> bool) (a b : str) :
  rstrip_of p b <> [] -> rstrip_of p (a ++ b) = a ++ rstrip_of p b.
Proof.
  intros Hb. induction a as [|c a IH]; [done|].
  cbn [app]. rewrite rstrip_of_cons, IH.
  destruct (a ++ rstrip_of p b) eqn:E; [|done].
  apply app_eq_nil in E as [_ E]. done.
Qed.

Lemma lstrip_of_length (p : N -> bool) (s : str) :
  length (lstrip_of p s) <= length s.
Proof.
  induction s as [|c s IH]; [done|]. cbn [lstrip_of].
  destruct (p c); cbn [length]; lia.
Qed.

Lemma strip_tight (s : str) : strip s <> [] -> tight (strip s).
Proof.
  intros Hne. split; [done|]. unfold strip in *. split; [|apply rstrip_of_idemp].
  destruct (lstrip_of is_space s) as [|a y] eqn:Ey; [done|].
  assert (is_space a = false) as Ha.
  { clear Hne. induction s as [|c s IH]; [done|]. cbn [lstrip_of] in Ey.
    destruct (is_space c) eqn:Hc; [by apply IH|]. by injection Ey as -> _. }
  rewrite rstrip_of_keeps by done. cbn [lstrip_of]. by rewrite Ha.
Qed.

Lemma join_tight (c : str) (cs : list str) :
  Forall tight (c :: cs) -> tight (join [LF; LF] (c :: cs)).
Proof.
  revert c. induction cs as [|c' cs IH]; intros c H.
  - by apply Forall_inv in H.
  - change (join [LF; LF] (c :: c' :: cs))
      with (c ++ [LF; LF] ++ join [LF; LF] (c' :: cs)).
    pose proof (Forall_inv H) as (Hne & Hl & _).
    apply Forall_inv_tail in H. destruct (IH c' H) as (Hne' & _ & Hr').
    split; [by destruct c|]. split.
    + destruct c as [|a c]; [done|]. cbn [lstrip_of app] in *.
      destruct (is_space a); [|done].
      pose proof (lstrip_of_length is_space c) as Hlen.
      rewrite Hl in Hlen. cbn [length] in Hlen. lia.
    + rewrite !app_assoc, rstrip_of_app, Hr'; [done|]. by rewrite Hr'.
Qed.

Lemma long_abstract_tight (line : str) :
  is_long_abstract line = true -> tight (content_of line).
Proof.
  unfold is_long_abstract. intros [_ H]%andb_true_iff.
  apply Nat.ltb_lt in H. unfold content_of in *. apply strip_tight.
  intros E. rewrite E in H. cbn in H. lia.
Qed.

(** The merged line of the contents of long abstracts is a long abstract
    and its content is what was joined. *)
Lemma merged_line_long (x : str) (long : list str) :
  Forall (fun l => is_long_abstract l = true) (x :: long) ->
  let merged := lit "AB  - " ++ join [LF; LF] (map content_of (x :: long)) in
  is_long_abstract merged = true
  /\ content_of merged = join [LF; LF] (map content_of (x :: long)).
Proof.
  intros H merged. subst merged.
  assert (content_of (lit "AB  - " ++ join [LF; LF] (map content_of (x :: long)))
          = join [LF; LF] (map content_of (x :: long))) as Econtent.
  { change (content_of (lit "AB  - " ++ ?j)) with (strip j).
    cbn [map]. destruct (join_tight (content_of x) (map content_of long))
      as (_ & Hl & Hr).
    - change (Forall tight (map content_of (x :: long))).
      apply (Forall_map_from (fun l => is_long_abstract l = true) tight);
        [done|apply long_abstract_tight].
    - unfold strip. by rewrite Hl, Hr. }
  split; [|done]. unfold is_long_abstract. rewrite Econtent.
  apply andb_true_iff. split; [reflexivity|].
  apply Nat.ltb_lt. cbn [map].
  pose proof (word_count_join (content_of x) (map content_of long)).
  apply Forall_inv in H. unfold is_long_abstract in H.
  apply andb_true_iff in H as [_ H]. apply Nat.ltb_lt in H. lia.
Qed.

Lemma filter_long_Forall (l : list str) :
  Forall (fun x => is_long_abstract x = true) (List.filter is_long_abstract l).
Proof. apply List.Forall_forall. intros x Hx. by apply filter_In in Hx as [_ ?]. Qed.

Lemma filter_filter_negb {A : Type} (p : A -> bool) (l : list A) :
  List.filter p (List.filter (fun x => negb (p x)) l) = []
  /\ List.filter (fun x => negb (p x)) (List.filter (fun x => negb (p x)) l)
     = List.filter (fun x => negb (p x)) l.
Proof.
  induction l as [|x l [IH1 IH2]]; [done|]. cbn [List.filter].
  destruct (p x) eqn:E; cbn [negb]; [done|].
  cbn [List.filter]. rewrite E. cbn [negb]. by rewrite IH1, IH2.
Qed.

(** X9: after the merge the body holds at most one abstract of more than 40
    words, the merged one, and merging again changes nothing. *)
Theorem merge_abstracts_leaves_one_long :
  forall body_norm : list str,
    List.filter is_long_abstract (merge_abstracts body_norm) =
      match List.filter is_long_abstract body_norm with
      | [] => []
      | _ :: _ =>
          [lit "AB  - " ++
           join [LF; LF] (map content_of (List.filter is_long_abstract body_norm))]
      end
    /\ merge_abstracts (merge_abstracts body_norm) = merge_abstracts body_norm.
Proof.
  intros body_norm.
  destruct (filter_filter_negb is_long_abstract body_norm) as [Hnone Hkept].
  pose proof (filter_long_Forall body_norm) as Hlong.
  rewrite (merge_abstracts_eq (merge_abstracts body_norm)).
  rewrite (merge_abstracts_eq body_norm), !List.filter_app, Hnone, Hkept.
  destruct (List.filter is_long_abstract body_norm) as [|x long]; cbn [app].
  - by rewrite !app_nil_r.
  - destruct (merged_line_long x long Hlong) as [Hm Hc]. cbv zeta in Hm, Hc.
    cbn [List.filter]. rewrite Hm. cbn [negb app map]. split; [done|].
    rewrite app_nil_r. cbn [map] in Hc. by rewrite Hc.
Qed.

(** ** Canonicalizing twice *)

Lemma compose_e_accents_cons (c : N) (s : str) :
  compose_e_accents (c :: s) =
  match compose_e_accents s with
  | m :: tail' =>
      if N.eqb c 101 && N.eqb m 768 then e_grave :: tail'
      else if N.eqb c 101 && N.eqb m 769 then e_acute :: tail'
      else c :: compose_e_accents s
  | [] => [c]
  end.
Proof. reflexivity. Qed.

Lemma e_accents_composed_tail (c d : N) (t : str) :
  d <> 101%N -> e_accents_composed (c :: t) -> e_accents_composed (d :: t).
Proof.
  destruct t as [|m t]; [done|]. cbn. intros Hd [_ Ht]. split; [|done].
  by intros [? _].
Qed.

Lemma compose_e_accents_composed (s : str) :
  e_accents_composed (compose_e_accents s).
Proof.
  induction s as [|c s IH]; [done|]. rewrite compose_e_accents_cons.
  destruct (compose_e_accents s) as [|m tail'] eqn:E; [done|].
  destruct (N.eqb_spec c 101) as [->|Hc]; cbn [andb].
  - destruct (N.eqb_spec m 768) as [->|H8].
    + by apply (e_accents_composed_tail 768).
    + destruct (N.eqb_spec m 769) as [->|H9].
      * by apply (e_accents_composed_tail 769).
      * cbn. split; [|done]. intros [_ [?|?]]; done.
  - cbn. split; [|done]. by intros [? _].
Qed.

Lemma compose_e_accents_fixed (s : str) :
  e_accents_composed s -> compose_e_accents s = s.
Proof.
  induction s as [|c s IH]; [done|]. intros H.
  rewrite compose_e_accents_cons.
  destruct s as [|m s]; [done|]. destruct H as [Hcm Hs].
  rewrite (IH Hs).
  destruct (N.eqb_spec c 101) as [->|Hc]; cbn [andb]; [|done].
  destruct (N.eqb_spec m 768) as [->|H8]; [by destruct Hcm; auto|].
  destruct (N.eqb_spec m 769) as [->|H9]; [by destruct Hcm; auto|].
  done.
Qed.

Lemma compose_e_accents_idempotent : idempotent compose_e_accents.
Proof. intros s. apply compose_e_accents_fixed, compose_e_accents_composed. Qed.

(** X10: for a normalizer that is idempotent and leaves composed text as
    it is, as NFC does, the canonicalizer is idempotent: the two canonical
    lines match no prefix of the tables and a line it has let through is
    let through again. *)
Theorem canon_line_idempotent :
  forall nfc : str -> str,
    fixes_composed nfc -> idempotent nfc ->
    forall line, canon_line nfc (canon_line nfc line) = canon_line nfc line.
Proof.
  intros nfc Hfix Hidem line.
  assert (canon_line nfc M3_maitrise = M3_maitrise) as HMA.
  { unfold canon_line. rewrite Hfix by reflexivity. reflexivity. }
  assert (canon_line nfc M3_doctorat = M3_doctorat) as HPHD.
  { unfold canon_line. rewrite Hfix by reflexivity. reflexivity. }
  assert (canon_line nfc line = M3_maitrise \/ canon_line nfc line = M3_doctorat
          \/ (canon_line nfc line = nfc line
              /\ starts_with_any prefixesMA (nfc line) = false
              /\ starts_with_any prefixesPHD (nfc line) = false))
    as [-> | [-> | (-> & EMA & EPHD)]]; [|done|done|].
  { unfold canon_line. cbv zeta.
    destruct (starts_with_any prefixesMA (nfc line)); [by left|].
    destruct (starts_with_any prefixesPHD (nfc line)); [right; by left|].
    right; by right. }
  unfold canon_line. cbv zeta. by rewrite Hidem, EMA, EPHD.
Qed.

Lemma canon_line_idempotent_witness :
  canon_line compose_e_accents (canon_line compose_e_accents These_PhD_decomposed)
  = canon_line compose_e_accents These_PhD_decomposed.
Proof.
  apply (canon_line_idempotent compose_e_accents
           compose_e_accents_fixes compose_e_accents_idempotent).
Defined.

(** ** Reading a file line by line (lines 250-251) *)

Lemma universal_newlines_no_CR (after_cr : bool) (s : str) :
  Forall (fun c => c <> CR) (universal_newlines after_cr s).
Proof.
  revert after_cr. induction s as [|c s IH]; intros after_cr; [constructor|].
  cbn [universal_newlines].
  destruct (N.eqb_spec c CR); [by constructor|].
  destruct (N.eqb_spec c LF); [destruct after_cr|]; try done; by constructor.
Qed.

Lemma file_lines_Forall (P : N -> Prop) (s : str) :
  Forall P s -> Forall (Forall P) (file_lines s).
Proof.
  induction 1 as [|c s Hc Hs IH]; [constructor|]. cbn [file_lines].
  destruct (N.eqb_spec c LF) as [->|_].
  - constructor; [|done]. constructor; [done|constructor].
  - destruct (file_lines s) as [|l ls].
    + constructor; [|constructor]. constructor; [done|constructor].
    + inversion IH; subst. constructor; [by constructor|done].
Qed.

Lemma file_lines_ends (s : str) :
  Forall (fun l => exists body, Forall (fun c => c <> LF) body
                                /\ (l = body ++ [LF] \/ l = body))
         (file_lines s).
Proof.
  induction s as [|c s IH]; [constructor|]. cbn [file_lines].
  destruct (N.eqb_spec c LF) as [->|Hc].
  - constructor; [|done]. exists []. split; [constructor|by left].
  - destruct (file_lines s) as [|l ls].
    + constructor; [|constructor]. exists [c].
      split; [constructor; [done|constructor]|by right].
    + inversion IH as [|? ? (body & Hbody & Hl) Hls]; subst.
      constructor; [|done]. exists (c :: body). split; [by constructor|].
      destruct Hl as [-> | ->]; [by left|by right].
Qed.

Lemma rstrip_of_none (p : N -> bool) (s : str) :
  Forall (fun c => p c = false) s -> rstrip_of p s = s.
Proof.
  induction 1 as [|c s Hc Hs IH]; [done|].
  rewrite rstrip_of_cons, IH, Hc. by destruct s.
Qed.

Lemma LF_not_in_chars (body : str) :
  Forall (fun c => c <> LF) body -> Forall (fun c => in_chars [LF] c = false) body.
Proof.
  intros H. eapply Forall_impl; [exact H|]. intros c Hc.
  unfold in_chars. cbn [existsb]. by destruct (N.eqb_spec c LF).
Qed.

(** X11: whatever the text of the file, no line read from it holds a line
    feed or a carriage return. *)
Theorem read_lines_hold_no_line_break :
  forall text : str, Forall plain (read_lines text).
Proof.
  intros text. unfold read_lines.
  pose proof (file_lines_Forall _ _ (universal_newlines_no_CR false text)) as HCR.
  pose proof (file_lines_ends (universal_newlines false text)) as Hends.
  induction HCR as [|l ls Hl _ IH]; [constructor|].
  inversion Hends as [|? ? (body & Hbody & Hlb) Hls]; subst.
  cbn [map]. constructor; [|by apply IH].
  assert (rstrip_chars [LF] l = body) as ->.
  { destruct Hlb as [-> | ->]; [by apply rstrip_line_feed|].
    by apply rstrip_of_none, LF_not_in_chars. }
  assert (Forall (fun c => c <> CR) body) as HbCR.
  { destruct Hlb as [-> | ->]; [|done]. by apply Forall_app in Hl as [? _]. }
  unfold plain. apply List.Forall_forall. intros c Hc.
  rewrite List.Forall_forall in Hbody, HbCR. split; auto.
Qed.

Lemma final_text_lines (final_records : list (list str)) :
  final_text final_records =
  flat_map (fun l => l ++ [LF]) (flat_map (fun rec => rec ++ [[]]) final_records).
Proof.
  unfold final_text. rewrite final_text_from. cbn [app].
  induction final_records as [|rec frs IH]; [done|]. cbn [flat_map].
  rewrite !flat_map_app, IH. cbn [flat_map app]. by rewrite <- !app_assoc.
Qed.

(** X12: the final file read back. When no line of the final records holds
    a line break, reading the file the final writer wrote gives the lines of
    every record followed by one empty line. *)
Theorem read_lines_final_text :
  forall final_records : list (list str),
    Forall (Forall plain) final_records ->
    read_lines (final_text final_records) =
    flat_map (fun rec => rec ++ [[]]) final_records.
Proof.
  intros final_records H. rewrite final_text_lines.
  apply read_lines_of_lines.
  apply Forall_flat_map_from with (Q := Forall plain); [done|].
  intros rec Hrec. apply Forall_app. split; [done|]. by repeat constructor.
Qed.

Lemma read_lines_final_text_witness :
  read_lines (final_text [final_title_record; [[]; []]]) =
  flat_map (fun rec => rec ++ [[]]) [final_title_record; [[]; []]].
Proof.
  apply (read_lines_final_text [final_title_record; [[]; []]]).
  repeat (constructor; [repeat (constructor;
            [apply no_line_break_plain; reflexivity|]); constructor|]).
  constructor.
Defined.

(** ** The lines the mapper writes *)

Lemma has_tag_more (tags tags' : list str) (e : str) :
  (forall t, In t tags -> In t tags') ->
  has_tag tags e = true -> has_tag tags' e = true.
Proof.
  unfold has_tag. intros Hsub (t & Ht & He)%existsb_exists.
  apply existsb_exists. exists t. split; [by apply Hsub|done].
Qed.

(** X13: every entry the mapper appends for a record begins with one of
    the eighteen two-letter tags, two spaces, a dash and a space, and a
    record has at least the four entries the mapper appends for any
    record. *)
Theorem ris_entries_vocabulary :
  forall record : SourceRecord,
    Forall (fun e => has_tag all_tags e = true) (ris_entries record)
    /\ 4 <= length (ris_entries record)
    /\ length all_tags = 18.
Proof.
  intros record. rewrite ris_entries_eq. split; [|split; [|reflexivity]].
  - apply Forall_app. split; [by repeat constructor|].
    apply Forall_app. split; [|by repeat constructor].
    apply Forall_flat_map_intro. intros f.
    eapply Forall_impl; [apply field_entries_tags|].
    intros e. apply has_tag_more. intros t Ht.
    unfold all_tags, middle_tags. right. apply in_or_app. left.
    apply in_or_app. by left.
  - rewrite !length_app. cbn [length]. lia.
Qed.

(** The branch of tag 001. *)
Lemma field_entries_001 (record : SourceRecord) (field : Field) :
  tag_is "001" field = true ->
  field_entries record field =
  map (fun sn => lit "ID  - " ++ replace (lit "=001  ") [] (field_text sn))
      (get_fields (lit "001") record).
Proof.
  intros H. unfold field_entries, tag_in. cbn [existsb].
  repeat match goal with
         | |- context [tag_is ?t' field] =>
             first [ rewrite (tag_is_excl "001" t' field H eq_refl)
                   | rewrite H ]
         end.
  cbn [orb]. apply bool_decide_eq_true in H. by rewrite H.
Qed.

Lemma field_entries_no_ID (record : SourceRecord) (field : Field) :
  tag_is "001" field = false ->
  Forall (fun e => starts_with (lit "ID") e = false) (field_entries record field).
Proof.
  intros H. unfold field_entries, tag_in. cbn [existsb]. rewrite H. cbn [orb].
  repeat match goal with
    | |- Forall _ (if ?b then _ else _) => destruct b
    | |- Forall _ (_ ++ _) => apply Forall_app; split
    | |- Forall _ (map _ _) => apply Forall_map_intro; intros; reflexivity
    | |- Forall _ (flat_map _ _) =>
        apply Forall_flat_map_intro; intros sn; unfold language_lines;
        destruct (contains (lit "fre") sn), (contains (lit "eng") sn);
        by repeat constructor
    | |- Forall _ [] => constructor
    | |- Forall _ [_] => constructor; [reflexivity|constructor]
    end.
Qed.

Lemma filter_all_true {A : Type} (p : A -> bool) (l : list A) :
  Forall (fun x => p x = true) l -> List.filter p l = l.
Proof. induction 1 as [|x l Hx _ IH]; simpl; [done|]. by rewrite Hx, IH. Qed.

Lemma ID_lines_count (whole record : SourceRecord) :
  length (List.filter (starts_with (lit "ID"))
                      (flat_map (field_entries whole) record)) =
  length (get_fields (lit "001") record) * length (get_fields (lit "001") whole).
Proof.
  induction record as [|field record IH]; [done|].
  cbn [flat_map]. rewrite List.filter_app, length_app, IH.
  change (get_fields (lit "001") (field :: record))
    with (if tag_is "001" field
          then field :: get_fields (lit "001") record
          else get_fields (lit "001") record).
  destruct (tag_is "001" field) eqn:E.
  - rewrite field_entries_001 by done.
    rewrite filter_all_true by (apply Forall_map_intro; intros; reflexivity).
    rewrite length_map. cbn [length]. lia.
  - rewrite filter_none by (by apply field_entries_no_ID). cbn [length]. lia.
Qed.

(** X14: a record with k fields of tag 001 gets k times k lines of tag ID,
    before deduplication: for each of these fields the mapper walks through
    all of them again. *)
Theorem ID_lines_squared :
  forall record : SourceRecord,
    length (lines_of_tag "ID" (ris_entries record)) =
    length (get_fields (lit "001") record) * length (get_fields (lit "001") record).
Proof.
  intros record. unfold lines_of_tag.
  rewrite ris_entries_eq, !List.filter_app, !length_app, ID_lines_count.
  change (List.filter (starts_with (lit "ID")) [TY_THES]) with (@nil str).
  change (List.filter (starts_with (lit "ID")) [CY_Montreal; PB_UdeM; ER_entry])
    with (@nil str).
  cbn [length]. lia.
Qed.

(** ** The two helper functions (lines 42-47) *)

Lemma remove_consecutive_duplicates_cons (x : str) (t : list str) :
  remove_consecutive_duplicates (x :: t) =
  match t with
  | [] => [x]
  | y :: _ => if bool_decide (x = y)
              then remove_consecutive_duplicates t
              else x :: remove_consecutive_duplicates t
  end.
Proof. reflexivity. Qed.

Lemma remove_consecutive_duplicates_head (x : str) (t : list str) :
  exists r, remove_consecutive_duplicates (x :: t) = x :: r.
Proof.
  revert x. induction t as [|y t IH]; intros x; [by exists []|].
  rewrite remove_consecutive_duplicates_cons.
  destruct (bool_decide_reflect (x = y)) as [->|_]; [apply IH|by eexists].
Qed.

Lemma remove_consecutive_duplicates_distinct (l : list str) :
  distinct_neighbours (remove_consecutive_duplicates l).
Proof.
  induction l as [|x t IH]; [done|].
  rewrite remove_consecutive_duplicates_cons.
  destruct t as [|y t]; [done|].
  destruct (bool_decide_reflect (x = y)) as [->|Hne]; [done|].
  destruct (remove_consecutive_duplicates_head y t) as [r Hr].
  rewrite Hr in IH |- *. by split.
Qed.

Lemma remove_consecutive_duplicates_fixed (l : list str) :
  distinct_neighbours l -> remove_consecutive_duplicates l = l.
Proof.
  induction l as [|x t IH]; [done|]. intros H.
  rewrite remove_consecutive_duplicates_cons.
  destruct t as [|y t]; [done|]. destruct H as [Hne Ht].
  rewrite bool_decide_eq_false_2 by done. by rewrite IH.
Qed.

Lemma remove_consecutive_duplicates_In (l : list str) (x : str) :
  In x (remove_consecutive_duplicates l) <-> In x l.
Proof.
  induction l as [|a t IH]; [done|].
  rewrite remove_consecutive_duplicates_cons.
  destruct t as [|y t]; [done|].
  destruct (bool_decide_reflect (a = y)) as [->|Hne].
  - rewrite IH. cbn [In]. tauto.
  - cbn [In] in *. tauto.
Qed.

Lemma remove_consecutive_duplicates_length (l : list str) :
  length (remove_consecutive_duplicates l) <= length l.
Proof.
  induction l as [|a t IH]; [done|].
  rewrite remove_consecutive_duplicates_cons.
  destruct t as [|y t]; [done|].
  destruct (bool_decide (a = y)); cbn [length] in *; lia.
Qed.

(** X15: [remove_consecutive_duplicates] gives a list without two equal
    lines next to each other, with the lines of its argument and no other,
    not longer than it, and leaves its own result as it is. *)
Theorem remove_consecutive_duplicates_spec :
  forall lignes : list str,
    distinct_neighbours (remove_consecutive_duplicates lignes)
    /\ (forall x, In x (remove_consecutive_duplicates lignes) <-> In x lignes)
    /\ length (remove_consecutive_duplicates lignes) <= length lignes
    /\ remove_consecutive_duplicates (remove_consecutive_duplicates lignes)
       = remove_consecutive_duplicates lignes.
Proof.
  intros lignes. split; [apply remove_consecutive_duplicates_distinct|].
  split; [intros x; apply remove_consecutive_duplicates_In|].
  split; [apply remove_consecutive_duplicates_length|].
  apply remove_consecutive_duplicates_fixed,
    remove_consecutive_duplicates_distinct.
Qed.

Lemma rstrip_of_last (p : N -> bool) (s r : str) (c : N) :
  rstrip_of p s = r ++ [c] -> p c = false.
Proof.
  revert r. induction s as [|a s IH]; intros r; [by destruct r|].
  rewrite rstrip_of_cons. destruct (rstrip_of p s) as [|d t].
  - destruct (p a) eqn:Ha; [by destruct r|].
    destruct r as [|b r]; [by intros [= <-]|].
    intros [= _ E]. by destruct r.
  - destruct r as [|b r]; [done|]. intros [= _ E]. by apply (IH r).
Qed.

Lemma rstrip_of_rest (p : N -> bool) (s : str) :
  exists ws, s = rstrip_of p s ++ ws /\ Forall (fun c => p c = true) ws.
Proof.
  induction s as [|a s (ws & Hs & Hws)]; [by exists []|].
  rewrite rstrip_of_cons. destruct (rstrip_of p s) as [|d t].
  - cbn [app] in Hs. subst s. destruct (p a) eqn:Ha.
    + exists (a :: ws). split; [done|by constructor].
    + by exists ws.
  - exists ws. split; [|done]. cbn [app]. by f_equal.
Qed.

(** X16: [strip_end_spaces] gives as many lines as it gets, each one the
    line it got without the white space at its end: the line is the result
    followed by white space only and the result ends with none; stripping
    again changes nothing. *)
Theorem strip_end_spaces_spec :
  forall lignes : list str,
    length (strip_end_spaces lignes) = length lignes
    /\ Forall no_trailing_space (strip_end_spaces lignes)
    /\ Forall2 (fun ligne stripped =>
                  exists ws, ligne = stripped ++ ws
                             /\ Forall (fun c => is_space c = true) ws)
               lignes (strip_end_spaces lignes)
    /\ strip_end_spaces (strip_end_spaces lignes) = strip_end_spaces lignes.
Proof.
  intros lignes. unfold strip_end_spaces, rstrip.
  split; [apply length_map|]. split; [|split].
  - apply Forall_map_intro. intros l r c. apply rstrip_of_last.
  - induction lignes as [|l lignes IH]; [constructor|].
    cbn [map]. constructor; [apply rstrip_of_rest|done].
  - rewrite map_map. apply map_ext. intros l. apply rstrip_of_idemp.
Qed.

(** ** Quotes and periods in the mapped lines *)

Lemma replace_removes_quotes (s : str) :
  Forall (fun c => c <> quote) (replace [quote] [] s).
Proof.
  unfold replace. induction s as [|c s IH]; [constructor|].
  cbn [replace_from starts_with length Nat.sub app].
  destruct (N.eqb_spec quote c) as [<-|Hc]; cbn [andb]; [done|].
  constructor; [by intros ->|done].
Qed.

Lemma quote_free_line (prefix chars y : str) :
  forallb (fun c => negb (N.eqb c quote)) prefix = true ->
  ~ In quote (prefix ++ rstrip_chars chars (replace [quote] [] y)).
Proof.
  intros Hp Hin. apply in_app_or in Hin as [Hin|Hin].
  - rewrite forallb_forall in Hp. specialize (Hp _ Hin).
    by rewrite N.eqb_refl in Hp.
  - pose proof (rstrip_of_Forall _ (in_chars chars) _ (replace_removes_quotes y)) as H.
    rewrite List.Forall_forall in H. by apply (H quote).
Qed.

Lemma period_free_line (prefix y : str) :
  N.eqb (List.last prefix period) period = false ->
  forall r, prefix ++ rstrip_chars (lit ".") y <> r ++ [period].
Proof.
  intros Hp r E. unfold rstrip_chars in E.
  destruct (rstrip_of (in_chars (lit ".")) y) as [|c q _] eqn:Ey using rev_ind.
  - rewrite app_nil_r in E. subst prefix. rewrite last_last in Hp.
    by rewrite N.eqb_refl in Hp.
  - apply rstrip_of_last in Ey. rewrite app_assoc in E.
    apply app_inj_tail in E as [_ ->]. done.
Qed.

(** The entries of a field, branch by branch: [solve_line] proves the
    property of a line whose tag is one of those looked at; the other lines
    are set aside by their tag. *)
Ltac by_branch solve_line :=
  unfold field_entries, date_line;
  repeat match goal with
    | |- Forall _ (if ?b then _ else _) => destruct b
    | |- Forall _ (_ ++ _) => apply Forall_app; split
    | |- Forall _ (map _ _) =>
        apply Forall_map_intro; intros ?; cbv zeta;
        first [left; reflexivity | right; solve_line]
    | |- Forall _ (flat_map _ _) =>
        apply Forall_flat_map_intro; intros sn; unfold language_lines;
        destruct (contains (lit "fre") sn), (contains (lit "eng") sn);
        repeat (constructor; [left; reflexivity|]); constructor
    | |- Forall _ [] => constructor
    | |- Forall _ [_] =>
        constructor;
        [cbv zeta; first [left; reflexivity | right; solve_line]|constructor]
    end.

Lemma field_entries_quote_free (record : SourceRecord) (field : Field) :
  Forall (fun e => has_tag quote_free_tags e = false \/ ~ In quote e)
         (field_entries record field).
Proof. by_branch ltac:(by apply quote_free_line). Qed.

Lemma field_entries_period_free (record : SourceRecord) (field : Field) :
  Forall (fun e => has_tag period_free_tags e = false
                   \/ forall r, e <> r ++ [period])
         (field_entries record field).
Proof. by_branch ltac:(by apply period_free_line). Qed.

Lemma Forall_filter_or (p : str -> bool) (Q : str -> Prop) (l : list str) :
  Forall (fun e => p e = false \/ Q e) l -> Forall Q (List.filter p l).
Proof.
  intros H. apply List.Forall_forall. intros e [He Hp]%filter_In.
  rewrite List.Forall_forall in H. destruct (H e He) as [Hf|HQ]; [congruence|done].
Qed.

Lemma ris_entries_by_field (tags : list str) (Q : str -> Prop) (record : SourceRecord) :
  has_tag tags TY_THES = false -> has_tag tags CY_Montreal = false ->
  has_tag tags PB_UdeM = false -> has_tag tags ER_entry = false ->
  (forall field, Forall (fun e => has_tag tags e = false \/ Q e)
                        (field_entries record field)) ->
  Forall Q (List.filter (has_tag tags) (ris_entries record)).
Proof.
  intros HTY HCY HPB HER H. apply Forall_filter_or. rewrite ris_entries_eq.
  apply Forall_app. split; [constructor; [by left|constructor]|].
  apply Forall_app. split; [by apply Forall_flat_map_intro|].
  repeat (constructor; [by left|]). constructor.
Qed.

(** X17: no line of tag M3 or AN the mapper writes holds a double quote. *)
Theorem degree_and_note_lines_hold_no_quote :
  forall record : SourceRecord,
    Forall (fun e => ~ In quote e)
           (List.filter (has_tag quote_free_tags) (ris_entries record)).
Proof.
  intros record. apply ris_entries_by_field; try reflexivity.
  apply field_entries_quote_free.
Qed.

(** X18: no line of tag TI, AU, A3, KW, M3 or AN the mapper writes ends
    with a period. *)
Theorem title_and_name_lines_end_with_no_period :
  forall record : SourceRecord,
    Forall (fun e => forall r, e <> r ++ [period])
           (List.filter (has_tag period_free_tags) (ris_entries record)).
Proof.
  intros record. apply ris_entries_by_field; try reflexivity.
  apply field_entries_period_free.
Qed.

(** ** Cleaning a record: its two ends and its length *)

Lemma sorted_set_length (l : list str) : length (sorted_set l) <= length l.
Proof.
  apply submseteq_length, NoDup_submseteq; [apply sorted_set_NoDup|].
  intros x. rewrite !list_elem_of_In. apply sorted_set_In.
Qed.

Lemma filter_partition_length {A : Type} (p : A -> bool) (l : list A) :
  length (List.filter (fun x => negb (p x)) l) + length (List.filter p l) = length l.
Proof.
  induction l as [|x l IH]; [done|]. cbn [List.filter].
  destruct (p x); cbn [negb length]; lia.
Qed.

Lemma merge_abstracts_length (body_norm : list str) :
  length (merge_abstracts body_norm) <= length body_norm.
Proof.
  rewrite merge_abstracts_eq, length_app.
  pose proof (filter_partition_length is_long_abstract body_norm).
  destruct (List.filter is_long_abstract body_norm); cbn [length] in *; lia.
Qed.

(** X19: a record with a line is cleaned into one record that begins with
    its first line and ends with its last line; a record of two lines or
    more does not get longer, and a record of a single line comes out as
    that line twice. *)
Theorem clean_record_ends_and_length :
  forall (nfc : str -> str) (ty : str) (rest : list str),
    exists new_body,
      clean_record nfc (ty :: rest) = [[ty] ++ new_body ++ [List.last rest ty]]
      /\ length new_body <= length rest - 1
      /\ clean_record nfc [ty] = [[ty; ty]].
Proof.
  intros nfc ty rest.
  exists (merge_abstracts (sorted_set (map nfc (body_of rest)))).
  split; [reflexivity|]. split; [|by vm_compute].
  etrans; [apply merge_abstracts_length|].
  etrans; [apply sorted_set_length|].
  rewrite length_map. unfold body_of.
  destruct rest as [|l rest] using rev_ind; [done|].
  rewrite removelast_last, length_app. cbn [length]. lia.
Qed.

(** ** Two batches of records *)

Lemma between_app {A : Type} (sep : A) (l1 l2 : list A) :
  l1 <> [] -> l2 <> [] ->
  between sep (l1 ++ l2) = between sep l1 ++ [sep] ++ between sep l2.
Proof.
  destruct l1 as [|x l1]; [done|]. destruct l2 as [|y l2]; [done|].
  intros _ _. cbn [app between]. f_equal.
  by rewrite flat_map_app.
Qed.

Lemma final_records_between (nfc : str -> str) (records : list SourceRecord) :
  forallb plain_record records = true ->
  final_records nfc records =
  between (map (canon_line nfc) [[]; []]) (map (final_record nfc) records).
Proof.
  intros H. unfold final_records. rewrite split_records_plain by done.
  unfold processed_records. rewrite fold_left_append. cbn [app].
  rewrite (flat_map_between (clean_record nfc) ris_lines
             (fun record => [TY_THES]
                ++ merge_abstracts (sorted_set (map nfc (record_middle record)))
                ++ [lit "ER  - "]) [[]] [[]; []]).
  - unfold canon_records. rewrite map_between, map_map. reflexivity.
  - apply clean_record_empty_line.
  - apply clean_record_ris_lines.
Qed.

(** X20: two batches of records without line breaks, run through the
    pipeline as one input, give the final records of the first batch, one
    record of two lines (the canonicalizer's image of the empty line), and
    the final records of the second batch; the intermediate file of the
    whole is the file of the first batch followed by the file of the
    second. *)
Theorem final_records_of_two_batches :
  forall (nfc : str -> str) (batch1 batch2 : list SourceRecord),
    forallb plain_record batch1 = true -> forallb plain_record batch2 = true ->
    batch1 <> [] -> batch2 <> [] ->
    final_records nfc (batch1 ++ batch2) =
      final_records nfc batch1
        ++ [map (canon_line nfc) [[]; []]]
        ++ final_records nfc batch2
    /\ temporary_ris (batch1 ++ batch2) = temporary_ris batch1 ++ temporary_ris batch2.
Proof.
  intros nfc batch1 batch2 H1 H2 Hne1 Hne2. split.
  - rewrite !final_records_between; [|done|done|by rewrite forallb_app, H1, H2].
    rewrite map_app. apply between_app; by destruct batch1, batch2.
  - by rewrite !temporary_ris_eq, flat_map_app.
Qed.

Lemma final_records_of_two_batches_witness :
  final_records compose_e_accents ([title_record] ++ [two_keywords; title_record]) =
  final_records compose_e_accents [title_record]
    ++ [map (canon_line compose_e_accents) [[]; []]]
    ++ final_records compose_e_accents [two_keywords; title_record]
  /\ temporary_ris ([title_record] ++ [two_keywords; title_record])
     = temporary_ris [title_record] ++ temporary_ris [two_keywords; title_record].
Proof.
  apply (final_records_of_two_batches compose_e_accents
           [title_record] [two_keywords; title_record]);
    [reflexivity|reflexivity|discriminate|discriminate].
Defined.
